(** * clean_and_tag_m3u: a shallow embedding of the playlist normalizer

    The development follows [scripts/clean_and_tag_m3u.py]:

    - Python strings are sequences of Unicode code points ([str]);
    - the character tables of the Python runtime that lie outside ASCII
      (alphanumeric class, upper-casing, simple lower-casing, casedness)
      are a parameter [unicode_db]; on ASCII they are written out;
    - the regular expressions of the script are terms of a small regex
      syntax, run by a backtracking matcher with the priorities of
      Python's [re] (first alternative first, greedy and lazy repeats);
    - the [while i < len(lines)] loop of [main] works on the suffix
      [lines[i:]] and is driven by a fuel equal to the number of lines. *)

From Stdlib Require Import List NArith ZArith Arith Bool Lia String Ascii.
From Stdlib Require Import DecimalString.
Import ListNotations.

(** ** Strings *)

Definition str := list N.

(** An ASCII literal as a sequence of code points. *)
Definition A (s : string) : str := map N_of_ascii (list_ascii_of_string s).

(** The same, with the apostrophe standing for the double quote (code 34). *)
Definition Q (s : string) : str :=
  map (fun c => if (c =? 39)%N then 34%N else c) (A s).

Fixpoint str_eqb (a b : str) : bool :=
  match a, b with
  | [], [] => true
  | x :: a', y :: b' => (x =? y)%N && str_eqb a' b'
  | _, _ => false
  end.

Fixpoint dropwhile {X} (p : X -> bool) (l : list X) : list X :=
  match l with
  | x :: l' => if p x then dropwhile p l' else l
  | [] => []
  end.

(** [s.startswith(p)] *)
Fixpoint startswith (s p : str) {struct p} : bool :=
  match p with
  | [] => true
  | c :: p' =>
      match s with
      | d :: s' => (c =? d)%N && startswith s' p'
      | [] => false
      end
  end.

(** [sep.join(parts)] *)
Fixpoint join (sep : str) (parts : list str) : str :=
  match parts with
  | [] => []
  | [p] => p
  | p :: ps => p ++ sep ++ join sep ps
  end.

(** Whitespace of [str.strip()] and of [\s] in a [str] pattern. *)
Definition isspace (c : N) : bool :=
  ((9 <=? c) && (c <=? 13) || (28 <=? c) && (c <=? 32) || (c =? 133)
   || (c =? 160) || (c =? 5760) || (8192 <=? c) && (c <=? 8202)
   || (c =? 8232) || (c =? 8233) || (c =? 8239) || (c =? 8287)
   || (c =? 12288))%N.

(** Removal of the longest suffix whose elements all satisfy [p]. *)
Definition dropwhile_end {X} (p : X -> bool) (l : list X) : list X :=
  rev (dropwhile p (rev l)).

Definition lstrip_by (p : N -> bool) (s : str) : str := dropwhile p s.
Definition rstrip_by (p : N -> bool) (s : str) : str := dropwhile_end p s.

(** [s.strip()] *)
Definition strip (s : str) : str := rstrip_by isspace (lstrip_by isspace s).
(** [s.rstrip(c)] for a one-character argument *)
Definition rstrip_char (c : N) (s : str) : str := rstrip_by (N.eqb c) s.

Definition LF : N := 10%N.
Definition CR : N := 13%N.
Definition dquote : N := 34%N.

(** ** Python dictionaries with string keys and values *)

Definition dict := list (str * str).

Fixpoint dict_get (k : str) (d : dict) : option str :=
  match d with
  | [] => None
  | (k', v) :: d' => if str_eqb k k' then Some v else dict_get k d'
  end.

(** [d[k] = v] *)
Fixpoint dict_set (k v : str) (d : dict) : dict :=
  match d with
  | [] => [(k, v)]
  | (k', v') :: d' =>
      if str_eqb k k' then (k', v) :: d' else (k', v') :: dict_set k v d'
  end.

(** [d.setdefault(k, v)] *)
Definition dict_setdefault (k v : str) (d : dict) : dict :=
  match dict_get k d with
  | Some _ => d
  | None => dict_set k v d
  end.

(** [dict(pairs)] *)
Definition dict_of_pairs (ps : list (str * str)) : dict :=
  fold_left (fun d kv => dict_set (fst kv) (snd kv) d) ps [].

(** Truth value of an optional string: [None] and [''] are false. *)
Definition truthy (o : option str) : bool :=
  match o with
  | Some (_ :: _) => true
  | _ => false
  end.

(** ** Regular expressions *)

(** The fragment of [re] syntax the script uses.  Repeats range over a
    single character class, which is all the script needs. *)
Inductive re : Type :=
| Eps
| Chr (p : N -> bool)
| Seq (a b : re)
| Alt (a b : re)
| Star (greedy : bool) (p : N -> bool)
| Grp (n : nat) (a : re)
| Bol
| Eol.

(** [p+] and [p+?] *)
Definition Plus (greedy : bool) (p : N -> bool) : re := Seq (Chr p) (Star greedy p).

Fixpoint alts (rs : list re) : re :=
  match rs with
  | [] => Eps
  | [r] => r
  | r :: rs' => Alt r (alts rs')
  end.

Definition caps := list (nat * str).

Fixpoint group (n : nat) (cs : caps) : str :=
  match cs with
  | [] => []
  | (m, s) :: cs' => if Nat.eqb n m then s else group n cs'
  end.

Section Matcher.
Variable R : Type.

(** Greedy repeat: take one more character when possible, otherwise
    (or when the rest fails) go on with the continuation. *)
Fixpoint star_greedy (p : N -> bool) (pos : nat) (s : str)
         (k : nat -> str -> option R) : option R :=
  match s with
  | c :: tl =>
      if p c then
        match star_greedy p (S pos) tl k with
        | Some r => Some r
        | None => k pos s
        end
      else k pos s
  | [] => k pos s
  end.

(** Lazy repeat: try the continuation first. *)
Fixpoint star_lazy (p : N -> bool) (pos : nat) (s : str)
         (k : nat -> str -> option R) : option R :=
  match k pos s with
  | Some r => Some r
  | None =>
      match s with
      | c :: tl => if p c then star_lazy p (S pos) tl k else None
      | [] => None
      end
  end.

(** [mt r pos s cs k]: match [r] at offset [pos], where [s] is the text
    from [pos] on, then run [k] on what follows; alternatives are tried
    in priority order and the first success is returned. *)
Fixpoint mt (r : re) (pos : nat) (s : str) (cs : caps)
         (k : nat -> str -> caps -> option R) : option R :=
  match r with
  | Eps => k pos s cs
  | Chr p =>
      match s with
      | c :: tl => if p c then k (S pos) tl cs else None
      | [] => None
      end
  | Seq a b => mt a pos s cs (fun pos' s' cs' => mt b pos' s' cs' k)
  | Alt a b =>
      match mt a pos s cs k with
      | Some x => Some x
      | None => mt b pos s cs k
      end
  | Star g p =>
      (if g then star_greedy else star_lazy) p pos s
        (fun pos' s' => k pos' s' cs)
  | Grp n a =>
      mt a pos s cs
         (fun pos' s' cs' => k pos' s' ((n, firstn (pos' - pos) s) :: cs'))
  | Bol => if Nat.eqb pos 0 then k pos s cs else None
  | Eol =>
      match s with
      | [] => k pos s cs
      | [c] => if (c =? 10)%N then k pos s cs else None
      | _ => None
      end
  end.
End Matcher.

Arguments star_greedy {R} p pos s k.
Arguments star_lazy {R} p pos s k.
Arguments mt {R} r pos s cs k.

(** One match attempt at offset [pos]: the end offset, the text after the
    match and the groups. *)
Definition match_here (r : re) (pos : nat) (s : str) : option (nat * str * caps) :=
  mt r pos s [] (fun e s' cs => Some (e, s', cs)).

(** [rx.match(s)] *)
Definition re_match (r : re) (s : str) : option caps :=
  match match_here r 0 s with
  | Some (_, _, cs) => Some cs
  | None => None
  end.

(** Leftmost match at or after [pos]. *)
Fixpoint search_from (r : re) (pos : nat) (s : str) : option (nat * str * caps) :=
  match match_here r pos s with
  | Some m => Some m
  | None =>
      match s with
      | _ :: tl => search_from r (S pos) tl
      | [] => None
      end
  end.

(** [rx.search(s)] as a truth value *)
Definition re_search (r : re) (s : str) : bool :=
  match search_from r 0 s with
  | Some _ => true
  | None => false
  end.

(** [rx.findall(s)] for a pattern with two groups that cannot match the
    empty string: successive leftmost matches, each starting where the
    previous one ended.  [fuel] bounds the number of matches. *)
Fixpoint findall_from (fuel : nat) (r : re) (pos : nat) (s : str) : list (str * str) :=
  match fuel with
  | O => []
  | S fuel' =>
      match search_from r pos s with
      | Some (e, s', cs) => (group 1 cs, group 2 cs) :: findall_from fuel' r e s'
      | None => []
      end
  end.

Definition re_findall (r : re) (s : str) : list (str * str) :=
  findall_from (S (List.length s)) r 0 s.

(** [re.sub(r, repl, s)] for a pattern that cannot match the empty
    string: a character where no match starts is copied. *)
Fixpoint sub_from (fuel : nat) (r : re) (repl : str) (pos : nat) (s : str) : str :=
  match fuel with
  | O => s
  | S fuel' =>
      match s with
      | [] => []
      | c :: tl =>
          match match_here r pos s with
          | Some (e, s', _) =>
              if Nat.eqb e pos then c :: sub_from fuel' r repl (S pos) tl
              else repl ++ sub_from fuel' r repl e s'
          | None => c :: sub_from fuel' r repl (S pos) tl
          end
      end
  end.

Definition re_sub (r : re) (repl : str) (s : str) : str :=
  sub_from (S (List.length s)) r repl 0 s.

(** ** Character tables *)

(** What the Python runtime knows about the code points from 128 on. *)
Record unicode_db : Type := {
  uni_alnum : N -> bool;       (* [str.isalnum], the letters and digits of [\w] *)
  uni_upper : N -> str;        (* [str.upper] of one character *)
  uni_tolower : N -> N;        (* simple lower case, used by [re.I] *)
  uni_iscased : N -> bool      (* cased characters, used by [re.I] *)
}.

Definition is_ascii (c : N) : bool := (c <? 128)%N.
Definition is_upper_az (c : N) : bool := ((65 <=? c) && (c <=? 90))%N.
Definition is_lower_az (c : N) : bool := ((97 <=? c) && (c <=? 122))%N.
Definition is_digit (c : N) : bool := ((48 <=? c) && (c <=? 57))%N.

(** Extra equivalences of case-insensitive matching ([re._casefix]). *)
Definition casefix (c : N) : list N :=
  let tbl : list (N * list N) :=
    [ (105, [305]); (115, [383]); (181, [956]); (305, [105]); (383, [115]);
      (837, [953; 8126]); (912, [8147]); (944, [8163]); (946, [976]);
      (949, [1013]); (952, [977]); (953, [837; 8126]); (954, [1008]);
      (956, [181]); (960, [982]); (961, [1009]); (962, [963]); (963, [962]);
      (966, [981]); (976, [946]); (977, [952]); (981, [966]); (982, [960]);
      (1008, [954]); (1009, [961]); (1013, [949]); (1074, [7296]);
      (1076, [7297]); (1086, [7298]); (1089, [7299]); (1090, [7300; 7301]);
      (1098, [7302]); (1123, [7303]); (7296, [1074]); (7297, [1076]);
      (7298, [1086]); (7299, [1089]); (7300, [1090; 7301]);
      (7301, [1090; 7300]); (7302, [1098]); (7303, [1123]); (7304, [42571]);
      (7777, [7835]); (7835, [7777]); (8126, [837; 953]); (8147, [912]);
      (8163, [944]); (42571, [7304]); (64261, [64262]); (64262, [64261]) ]%N in
  match find (fun e => (fst e =? c)%N) tbl with
  | Some e => snd e
  | None => []
  end.

Section Program.
Variable U : unicode_db.

Definition upper_char (c : N) : str :=
  if is_ascii c then [if is_lower_az c then (c - 32)%N else c]
  else uni_upper U c.

(** [s.upper()] *)
Definition upper (s : str) : str := flat_map upper_char s.

Definition tolower (c : N) : N :=
  if is_ascii c then (if is_upper_az c then (c + 32)%N else c)
  else uni_tolower U c.

Definition iscased (c : N) : bool :=
  if is_ascii c then is_upper_az c || is_lower_az c else uni_iscased U c.

(** [\w] *)
Definition is_word (c : N) : bool :=
  if is_ascii c then is_upper_az c || is_lower_az c || is_digit c || (c =? 95)%N
  else uni_alnum U c.

(** [.] without DOTALL *)
Definition dot (c : N) : bool := negb (c =? LF)%N.

(** A literal character of a pattern compiled with [re.I]: an uncased
    character stands for itself; a cased one matches every character
    whose lower case is its lower case or one of the listed equivalents. *)
Definition ci_char (c : N) : N -> bool :=
  if iscased c then
    let lo := tolower c in
    fun x => let y := tolower x in (y =? lo)%N || existsb (N.eqb y) (casefix lo)
  else N.eqb c.

Definition lit (c : N) : re := Chr (N.eqb c).
Definition lit_i (c : N) : re := Chr (ci_char c).
Definition lits_i (s : str) : re := fold_right (fun c r => Seq (lit_i c) r) Eps s.

(** *** sanitize_id *)

(** [[^A-Za-z0-9._-]] *)
Definition id_char (c : N) : bool :=
  is_upper_az c || is_lower_az c || is_digit c
  || (c =? 46)%N || (c =? 95)%N || (c =? 45)%N.

Definition sanitize_id (name : str) : str :=
  let s := strip name in
  let s := re_sub (Plus true isspace) (A ".") s in
  let s := re_sub (Chr (fun c => negb (id_char c))) [] s in
  match s with
  | [] => A "unknown"
  | _ => s
  end.

(** *** Tables *)

Definition SINEMALAR : str := A "S" ++ [304%N] ++ A "NEMALAR".
Definition FILMLER : str := A "F" ++ [304%N] ++ A "LMLER".
Definition FILM : str := A "F" ++ [304%N] ++ A "LM".
Definition BELGESEL : str := A "BELGESEL".
Definition YEDEK : str := A "YEDEK".
Definition K724 : str := A "7/24".
Definition DEFAULT : str := A "DEFAULT".

Definition hizliresim : str := A "https://i.hizliresim.com/i21k4te.png".

Definition DEFAULT_LOGOS : dict :=
  [ (SINEMALAR, hizliresim);
    (FILMLER, hizliresim);
    (FILM, hizliresim);
    (BELGESEL, A "https://upload.wikimedia.org/wikipedia/commons/1/1b/Documentary_icon.png");
    (YEDEK, hizliresim);
    (K724, hizliresim);
    (DEFAULT, hizliresim) ].

(** [DEFAULT_LOGOS.get(k, DEFAULT_LOGOS['DEFAULT'])] *)
Definition logo_for (k : str) : str :=
  match dict_get k DEFAULT_LOGOS with
  | Some v => v
  | None => match dict_get DEFAULT DEFAULT_LOGOS with Some v => v | None => [] end
  end.

Definition SECTION_KEYWORDS : list (str * re) :=
  [ (SINEMALAR, alts [lits_i (A "sinema"); lits_i (A "filmler"); lits_i (A "sinemalar")]);
    (BELGESEL, alts [lits_i (A "belgesel"); lits_i (A "belgeseller"); lits_i (A "documentary")]);
    (YEDEK, alts [Seq (lits_i (A "yed")) (Seq (Alt (lit_i 101%N) Eps) (lits_i (A "k")));
                  lits_i (A "yedekler")]);
    (K724, alts [lits_i (A "7/24");
                 lits_i (A "7/24 yay" ++ [305%N] ++ A "n");
                 lits_i (A "7/24 yayin")]);
    (FILMLER, alts [lits_i (A "filmler");
                    lits_i (A "filmler " ++ [127916%N]);
                    lits_i (A "filmler")]) ].

(** The pattern [(\w+?)=Q(.*?)Q], where Q is the double quote. *)
Definition ATTR_RE : re :=
  Seq (Grp 1 (Plus false is_word))
      (Seq (lit 61%N)
           (Seq (lit dquote)
                (Seq (Grp 2 (Star false dot)) (lit dquote)))).

(** The pattern of [EXTINF_RE], compiled with [re.I]: start anchor, the
    group [prefix] (the marker, characters other than commas, a comma),
    the group [title] (any characters but line feeds), end anchor.  The
    groups [prefix] and [title] are numbered 1 and 2. *)
Definition EXTINF_RE : re :=
  Seq Bol
      (Seq (Grp 1 (Seq (lits_i (A "#EXTINF"))
                       (Seq (Star true (fun c => negb (c =? 44)%N)) (lit_i 44%N))))
           (Seq (Grp 2 (Star true dot)) Eol)).

(** *** parse_extinf_attrs, build_extinf, detect_section_from_extinf *)

Definition parse_extinf_attrs (line : str) : dict * str :=
  let attrs := dict_of_pairs (re_findall ATTR_RE line) in
  let title :=
    match re_match EXTINF_RE line with
    | Some cs => strip (group 2 cs)
    | None => []
    end in
  (attrs, title).

Definition EXTINF_KEYS : list str :=
  [A "tvg-id"; A "tvg-name"; A "tvg-logo"; A "group-title"].

(** [f'{k}="{v}"'] *)
Definition fmt_pair (k v : str) : str := k ++ [61%N; dquote] ++ v ++ [dquote].

Fixpoint extinf_parts (keys : list str) (attrs : dict) : list str :=
  match keys with
  | [] => []
  | k :: keys' =>
      match dict_get k attrs with
      | Some (c :: v) => fmt_pair k (c :: v) :: extinf_parts keys' attrs
      | _ => extinf_parts keys' attrs
      end
  end.

Definition build_extinf (attrs : dict) (title : str) : str :=
  let parts := extinf_parts EXTINF_KEYS attrs in
  let joined := join (A " ") parts in
  A "#EXTINF:-1 " ++ joined ++ A "," ++ title.

Fixpoint first_section (kws : list (str * re)) (title : str) : option str :=
  match kws with
  | [] => None
  | (key, rx) :: kws' =>
      if re_search rx title then Some key else first_section kws' title
  end.

Definition detect_section_from_extinf (line : str) : option str :=
  let '(_, title) := parse_extinf_attrs line in
  let t := upper title in
  first_section SECTION_KEYWORDS title.

(** *** normalize_lines *)

Fixpoint normalize_loop (lines : list str) (prev_blank : bool) (out : list str)
  : list str :=
  match lines with
  | [] => out
  | l :: lines' =>
      let s := rstrip_char CR (rstrip_char LF l) in
      if str_eqb (strip s) [] then
        normalize_loop lines' true (if prev_blank then out else out ++ [[]])
      else
        normalize_loop lines' false (out ++ [strip s])
  end.

Definition is_blank (s : str) : bool := str_eqb s [].

(** [while out and out[-1] == '': out.pop()] *)
Definition pop_trailing_blank (out : list str) : list str :=
  dropwhile_end is_blank out.

Definition normalize_lines (lines : list str) : list str :=
  pop_trailing_blank (normalize_loop lines false []).

(** *** The loop of [main] *)

Definition is_header (line : str) : bool := startswith (upper line) (A "#EXTM3U").
Definition is_extinf (line : str) : bool := startswith (upper line) (A "#EXTINF").
Definition is_hash (line : str) : bool := startswith line (A "#").

(** The attributes of a section marker, lines 123-129. *)
Definition section_attrs (attrs : dict) (title sec : str) : dict :=
  let attrs := dict_setdefault (A "tvg-name") title attrs in
  let attrs := dict_setdefault (A "group-title") sec attrs in
  let attrs := dict_setdefault (A "tvg-logo") (logo_for sec) attrs in
  dict_setdefault (A "tvg-id") (sanitize_id title) attrs.

(** [attrs.get('group-title') or current_group or 'DEFAULT'] *)
Definition resolve_group (attrs : dict) (current_group : option str) : str :=
  match dict_get (A "group-title") attrs with
  | Some (c :: g) => c :: g
  | _ => match current_group with
         | Some (c :: g) => c :: g
         | _ => DEFAULT
         end
  end.

(** [attrs.get('tvg-name') or title or (url or '')] *)
Definition resolve_name (attrs : dict) (title : str) (url : option str) : str :=
  match dict_get (A "tvg-name") attrs with
  | Some (c :: n) => c :: n
  | _ => match title with
         | _ :: _ => title
         | [] => match url with
                 | Some (c :: u) => c :: u
                 | _ => []
                 end
         end
  end.

(** The attributes of an ordinary entry, lines 148-160. *)
Definition entry_attrs (attrs : dict) (title : str) (url current_group : option str)
  : dict :=
  let group := resolve_group attrs current_group in
  let attrs := dict_setdefault (A "group-title") group attrs in
  let name := resolve_name attrs title url in
  let attrs := dict_setdefault (A "tvg-name") name attrs in
  let attrs :=
    dict_setdefault (A "tvg-id")
      (sanitize_id (match dict_get (A "tvg-name") attrs with
                    | Some n => n
                    | None => []
                    end)) attrs in
  if truthy (dict_get (A "tvg-logo") attrs) then attrs
  else dict_set (A "tvg-logo") (logo_for (upper group)) attrs.

(** The formatted value of [attrs.get('tvg-name')] on line 162. *)
Definition name_of (attrs : dict) : str :=
  match dict_get (A "tvg-name") attrs with
  | Some n => n
  | None => A "None"
  end.

(** [entry_loop fuel current_group rest]: the output lines appended from
    index [i] on, where [rest = lines[i:]]. *)
Fixpoint entry_loop (fuel : nat) (current_group : option str) (rest : list str)
  : list str :=
  match fuel with
  | O => []
  | S fuel' =>
      match rest with
      | [] => []
      | line :: tl =>
          if is_header line then
            A "#EXTM3U" :: entry_loop fuel' current_group tl
          else if is_extinf line then
            let '(attrs, title) := parse_extinf_attrs line in
            match detect_section_from_extinf line with
            | Some (c :: sec') =>
                let sec := c :: sec' in
                let attrs := section_attrs attrs title sec in
                build_extinf attrs title ::
                  match tl with
                  | next :: tl' =>
                      if negb (is_extinf next)
                      then next :: entry_loop fuel' (Some sec) tl'
                      else entry_loop fuel' (Some sec) tl
                  | [] => entry_loop fuel' (Some sec) tl
                  end
            | _ =>
                let after := dropwhile is_hash tl in
                let url := hd_error after in
                let attrs := entry_attrs attrs title url current_group in
                build_extinf attrs (name_of attrs) ::
                  match after with
                  | (c :: u) :: after' => (c :: u) :: entry_loop fuel' current_group after'
                  | _ => entry_loop fuel' current_group after
                  end
            end
          else line :: entry_loop fuel' current_group tl
      end
  end.

(** Lines 104-173 of [main]: the lines written to the output file. *)
Definition normalization_pass (raw : list str) : list str :=
  let lines := normalize_lines raw in
  entry_loop (List.length lines) None lines.

End Program.

(** A database that knows nothing beyond ASCII, for running examples. *)
Definition ascii_db : unicode_db :=
  {| uni_alnum := fun _ => false;
     uni_upper := fun c => [c];
     uni_tolower := fun c => c;
     uni_iscased := fun _ => false |}.

(** ** The reachability check of [main] (option [--check]) *)

(** Lines 185-195: the metadata lines of the output with the line that
    follows when it does not start with [#]; the index moves by two after
    a metadata line and by one otherwise. *)
Fixpoint collect_entries (U : unicode_db) (out_lines : list str)
  : list (str * option str) :=
  match out_lines with
  | [] => []
  | line :: rest =>
      if is_extinf U line then
        match rest with
        | next :: rest' =>
            (line, if negb (is_hash next) then Some next else None)
              :: collect_entries U rest'
        | [] => [(line, None)]
        end
      else collect_entries U rest
  end.

(** What a request gives: a status code, or an exception with its text. *)
Inductive response : Type :=
| Status (code : Z)
| Raised (msg : str).

(** The network, as seen by the loop: the answers to the HEAD and to the
    GET request made for the entry of index [i]. *)
Record network : Type := {
  net_head : nat -> str -> response;
  net_get : nat -> str -> response
}.

(** [str(n)] for an integer *)
Definition decimal (n : Z) : str := A (NilZero.string_of_int (Z.to_int n)).

(** Lines 202-213 for one URL: nothing when the entry is counted as OK,
    the reason otherwise. *)
Definition probe (net : network) (i : nat) (url : str) : option str :=
  let verdict (status : Z) :=
    if (status <? 400)%Z then None else Some (A "HTTP " ++ decimal status) in
  match net_head net i url with
  | Raised e => Some e
  | Status status =>
      if (400 <=? status)%Z then
        match net_get net i url with
        | Raised e => Some e
        | Status status' => verdict status'
        end
      else verdict status
  end.

(** Lines 196-213: the loop over the entries, with its counter [ok] and
    its list [bad]; [i] is the index of the first entry of [entries]. *)
Fixpoint check_loop (net : network) (i : nat) (entries : list (str * option str))
         (ok : nat) (bad : list (str * str)) : nat * list (str * str) :=
  match entries with
  | [] => (ok, bad)
  | (ext, url) :: entries' =>
      match url with
      | Some (c :: u) =>
          match probe net i (c :: u) with
          | None => check_loop net (S i) entries' (S ok) bad
          | Some reason => check_loop net (S i) entries' ok (bad ++ [(ext, reason)])
          end
      | _ => check_loop net (S i) entries' ok (bad ++ [(ext, A "<missing>")])
      end
  end.

Definition check_entries (net : network) (entries : list (str * option str))
  : nat * list (str * str) :=
  check_loop net 0 entries 0 [].

(** ** Notions used to state the properties *)

Definition all_space (w : str) : Prop := Forall (fun c => isspace c = true) w.

(** [normalize_lines] without its accumulator: the stripped lines, a blank
    one being dropped when the line before it was blank. *)
Fixpoint squeeze (prev_blank : bool) (lines : list str) : list str :=
  match lines with
  | [] => []
  | l :: lines' =>
      match strip l with
      | [] => if prev_blank then squeeze true lines' else [] :: squeeze true lines'
      | t => t :: squeeze false lines'
      end
  end.

(** No blank line is followed by a blank line. *)
Fixpoint no_blank_pair (l : list str) : Prop :=
  match l with
  | [] => True
  | a :: tl =>
      match tl with
      | b :: _ => a = [] -> b <> []
      | [] => True
      end /\ no_blank_pair tl
  end.

Definition nonblank (s : str) : bool := negb (is_blank s).

(** The serialized pair of key [k], when [attrs] holds a non-empty value
    for it; nothing otherwise. *)
Definition pair_of (attrs : dict) (k : str) : list str :=
  match dict_get k attrs with
  | Some (c :: v) => [k ++ A "=" ++ [dquote] ++ (c :: v) ++ [dquote]]
  | _ => []
  end.

(** The sanitization rule in the words of the specification: each run of
    white space becomes one full stop ([in_run] tells that the previous
    character was white space). *)
Fixpoint dots_for_space (in_run : bool) (s : str) : str :=
  match s with
  | [] => []
  | c :: tl =>
      if isspace c then
        if in_run then dots_for_space true tl else 46%N :: dots_for_space true tl
      else c :: dots_for_space false tl
  end.

Definition sanitize_rule (name : str) : str :=
  match filter id_char (dots_for_space false (strip name)) with
  | [] => A "unknown"
  | r => r
  end.

(** The Section Classifier in the words of the specification: a table of
    categories with their keywords, a keyword being looked for anywhere in
    the title, letter case ignored. *)
Fixpoint ci_prefix (U : unicode_db) (w s : str) : bool :=
  match w with
  | [] => true
  | c :: w' =>
      match s with
      | x :: s' => ci_char U c x && ci_prefix U w' s'
      | [] => false
      end
  end.

(** [P] holds of some suffix of [s]. *)
Fixpoint anywhere (P : str -> bool) (s : str) : bool :=
  P s || match s with
         | _ :: s' => anywhere P s'
         | [] => false
         end.

Definition ci_infix (U : unicode_db) (w s : str) : bool := anywhere (ci_prefix U w) s.

Definition KEYWORDS : list (str * list str) :=
  [ (SINEMALAR, [A "sinema"; A "filmler"; A "sinemalar"]);
    (BELGESEL, [A "belgesel"; A "belgeseller"; A "documentary"]);
    (YEDEK, [A "yedek"; A "yedk"; A "yedekler"]);
    (K724, [A "7/24"; A "7/24 yay" ++ [305%N] ++ A "n"; A "7/24 yayin"]);
    (FILMLER, [A "filmler"; A "filmler " ++ [127916%N]; A "filmler"]) ].

Fixpoint classify (U : unicode_db) (tbl : list (str * list str)) (title : str)
  : option str :=
  match tbl with
  | [] => None
  | (cat, kws) :: tbl' =>
      if existsb (fun w => ci_infix U w title) kws then Some cat
      else classify U tbl' title
  end.

(** Two characters that differ at most by the case of an ASCII letter. *)
Definition ascii_fold (c : N) : N := if is_upper_az c then (c + 32)%N else c.
Definition same_case (c d : N) : Prop := ascii_fold c = ascii_fold d.

(** The metadata lines the loop emits, written from the title, the URL and
    the current group alone. *)
Definition canon (id name logo group : str) : dict :=
  [ (A "tvg-id", id); (A "tvg-name", name); (A "tvg-logo", logo);
    (A "group-title", group) ].

Definition group_of (current_group : option str) : str :=
  match current_group with
  | Some (c :: g) => c :: g
  | _ => DEFAULT
  end.

Definition name_from (title : str) (url : option str) : str :=
  match title with
  | _ :: _ => title
  | [] => match url with
          | Some (c :: u) => c :: u
          | _ => []
          end
  end.

Definition section_line (title sec : str) : str :=
  build_extinf (canon (sanitize_id title) title (logo_for sec) sec) title.

Definition entry_line (U : unicode_db) (title : str) (url current_group : option str)
  : str :=
  let name := name_from title url in
  let group := group_of current_group in
  build_extinf (canon (sanitize_id name) name (logo_for (upper U group)) group) name.

(** The loop started with as much fuel as there are lines. *)
Definition run (U : unicode_db) (cg : option str) (rest : list str) : list str :=
  entry_loop U (List.length rest) cg rest.

(** An output line that begins with the metadata marker. *)
Definition is_metadata (l : str) : bool := startswith l (A "#EXTINF").





(** A header line is copied as it is (the reading of the specification). *)
Definition header_copied (U : unicode_db) (fuel : nat) (cg : option str)
           (line : str) (tl : list str) : Prop :=
  is_header U line = true ->
  entry_loop U (S fuel) cg (line :: tl) = line :: entry_loop U fuel cg tl.

Definition notcomma (c : N) : bool := negb (c =? 44)%N.

(** The character [c] occurs in [s]. *)
Definition has (c : N) (s : str) : bool := existsb (N.eqb c) s.

(** Every blank line is followed by a line that is not blank. *)
Fixpoint tidy (l : list str) : Prop :=
  match l with
  | [] => True
  | a :: tl =>
      (a = [] -> match tl with
                 | b :: _ => b <> []
                 | [] => False
                 end) /\ tidy tl
  end.




(** *** The matches of a regular expression, declaratively *)

(** [star_run p pos s pos' s']: from offset [pos] with text [s], some
    number of characters of class [p] are read, leaving [s'] at [pos']. *)
Inductive star_run (p : N -> bool) : nat -> str -> nat -> str -> Prop :=
| star_stop pos s : star_run p pos s pos s
| star_more pos c s pos' s' :
    p c = true -> star_run p (S pos) s pos' s' -> star_run p pos (c :: s) pos' s'.

(** [mrel r pos s cs pos' s' cs']: [r] can match from offset [pos] (text
    [s], groups [cs]) up to offset [pos'] (text [s'], groups [cs']). *)
Inductive mrel : re -> nat -> str -> caps -> nat -> str -> caps -> Prop :=
| m_eps pos s cs : mrel Eps pos s cs pos s cs
| m_chr p c pos s cs : p c = true -> mrel (Chr p) pos (c :: s) cs (S pos) s cs
| m_seq a b pos s cs pos1 s1 cs1 pos2 s2 cs2 :
    mrel a pos s cs pos1 s1 cs1 -> mrel b pos1 s1 cs1 pos2 s2 cs2 ->
    mrel (Seq a b) pos s cs pos2 s2 cs2
| m_alt_l a b pos s cs pos' s' cs' :
    mrel a pos s cs pos' s' cs' -> mrel (Alt a b) pos s cs pos' s' cs'
| m_alt_r a b pos s cs pos' s' cs' :
    mrel b pos s cs pos' s' cs' -> mrel (Alt a b) pos s cs pos' s' cs'
| m_star g p pos s cs pos' s' :
    star_run p pos s pos' s' -> mrel (Star g p) pos s cs pos' s' cs
| m_grp n a pos s cs pos' s' cs' :
    mrel a pos s cs pos' s' cs' ->
    mrel (Grp n a) pos s cs pos' s' ((n, firstn (pos' - pos) s) :: cs')
| m_bol s cs : mrel Bol 0 s cs 0 s cs
| m_eol_end pos cs : mrel Eol pos [] cs pos [] cs
| m_eol_nl pos cs : mrel Eol pos [10%N] cs pos [10%N] cs.

(** Upper-casing a character from 128 on gives at least one character and
    never starts with [#]. *)
Definition hash_safe (U : unicode_db) : Prop :=
  forall c, (128 <= c)%N ->
    match uni_upper U c with
    | [] => False
    | d :: _ => d <> 35%N
    end.

(** The groups and the logos the loop can write. *)
Definition WRITTEN_GROUPS : list str := [DEFAULT; SINEMALAR; BELGESEL; YEDEK; K724].
Definition WRITTEN_LOGOS : list str :=
  [hizliresim;
   A "https://upload.wikimedia.org/wikipedia/commons/1/1b/Documentary_icon.png"].

(** The current group is none or a category a section marker can set. *)
Definition known_state (cg : option str) : Prop :=
  match cg with
  | Some g => In g [SINEMALAR; BELGESEL; YEDEK; K724]
  | None => True
  end.

Definition plain (l : str) : bool := negb (is_hash l).

(** A metadata line written from a name, with a group and a logo of the
    tables. *)
Definition written_shape (l : str) : Prop :=
  exists name group logo,
    l = build_extinf (canon (sanitize_id name) name logo group) name
    /\ In group WRITTEN_GROUPS /\ In logo WRITTEN_LOGOS.

(** Every metadata line is followed by a line that does not start with [#]. *)
Fixpoint paired (U : unicode_db) (lines : list str) : Prop :=
  match lines with
  | [] => True
  | l :: rest =>
      if is_extinf U l then
        match rest with
        | u :: rest' => is_hash u = false /\ paired U rest'
        | [] => False
        end
      else paired U rest
  end.

(** The entries that have a URL to probe. *)
Definition has_url (e : str * option str) : bool :=
  match snd e with
  | Some (_ :: _) => true
  | _ => false
  end.

(** * Properties *)

(** ** Lists and strings: basic facts *)

Lemma str_eqb_eq (a b : str) : str_eqb a b = true <-> a = b.
Proof.
  revert b; induction a as [|x a IH]; intros [|y b]; simpl; split; intro H;
    try reflexivity; try discriminate.
  - apply andb_true_iff in H as [Hx Hab]. apply N.eqb_eq in Hx.
    apply IH in Hab. now subst.
  - inversion H; subst. rewrite N.eqb_refl. simpl. now apply IH.
Qed.

Lemma str_eqb_refl (a : str) : str_eqb a a = true.
Proof. now apply str_eqb_eq. Qed.

Lemma str_eqb_neq (a b : str) : str_eqb a b = false <-> a <> b.
Proof.
  split; intro H.
  - intro E. apply str_eqb_eq in E. congruence.
  - destruct (str_eqb a b) eqn:E; [apply str_eqb_eq in E; contradiction | reflexivity].
Qed.

Lemma is_blank_true s : str_eqb s [] = true <-> s = [].
Proof. apply str_eqb_eq. Qed.

Lemma startswith_app (p s : str) : startswith (p ++ s) p = true.
Proof. induction p; simpl; [reflexivity | now rewrite N.eqb_refl]. Qed.

Lemma startswith_prefix (s p : str) :
  startswith s p = true <-> exists t, s = p ++ t.
Proof.
  revert s; induction p as [|c p IH]; intros s; simpl.
  - split; [intros _; now exists s | reflexivity].
  - destruct s as [|d s].
    + split; [discriminate | intros [t Ht]; discriminate].
    + rewrite andb_true_iff, N.eqb_eq, IH. split.
      * intros [-> [t ->]]. now exists t.
      * intros [t Ht]. inversion Ht; subst. split; [reflexivity | now exists t].
Qed.

Section Dropwhile.
Context {X : Type}.
Variable p : X -> bool.

Lemma dropwhile_app (a b : list X) :
  dropwhile p (a ++ b) =
  match dropwhile p a with
  | [] => dropwhile p b
  | x :: r => (x :: r) ++ b
  end.
Proof.
  induction a as [|x a IH]; simpl.
  - now destruct (dropwhile p b).
  - destruct (p x); [exact IH | reflexivity].
Qed.

Lemma dropwhile_all (l : list X) :
  Forall (fun x => p x = true) l -> dropwhile p l = [].
Proof. induction 1 as [|x l Hx _ IH]; simpl; [reflexivity | now rewrite Hx]. Qed.

Lemma dropwhile_split (l : list X) :
  exists w, l = w ++ dropwhile p l /\ Forall (fun x => p x = true) w.
Proof.
  induction l as [|x l [w [E F]]]; simpl.
  - exists []. now split.
  - destruct (p x) eqn:Hx.
    + exists (x :: w). split; [simpl; now f_equal | now constructor].
    + exists []. now split.
Qed.

Lemma dropwhile_head (l : list X) x r : dropwhile p l = x :: r -> p x = false.
Proof.
  induction l as [|y l IH]; simpl; [discriminate|].
  destruct (p y) eqn:Hy; [exact IH | intros H; now inversion H; subst].
Qed.

Lemma dropwhile_id (l : list X) x r : l = x :: r -> p x = false -> dropwhile p l = l.
Proof. intros -> H. simpl. now rewrite H. Qed.

Lemma dropwhile_length (l : list X) : List.length (dropwhile p l) <= List.length l.
Proof. induction l as [|x l IH]; simpl; [lia | destruct (p x); simpl; lia]. Qed.

Lemma dropwhile_incl (l : list X) x : In x (dropwhile p l) -> In x l.
Proof.
  induction l as [|y l IH]; simpl; [tauto|].
  destruct (p y); [intro H; right; now apply IH | simpl; tauto].
Qed.
End Dropwhile.

Section DropwhileEnd.
Context {X : Type}.
Variable p : X -> bool.

Lemma dropwhile_end_split (s : list X) :
  exists w, s = dropwhile_end p s ++ w /\ Forall (fun c => p c = true) w.
Proof.
  unfold dropwhile_end. destruct (dropwhile_split p (rev s)) as [w [E F]].
  exists (rev w). split.
  - rewrite <- rev_app_distr, <- E. now rewrite rev_involutive.
  - apply Forall_rev. exact F.
Qed.

Lemma dropwhile_end_app_all (s w : list X) :
  Forall (fun c => p c = true) w -> dropwhile_end p (s ++ w) = dropwhile_end p s.
Proof.
  intro F. unfold dropwhile_end. rewrite rev_app_distr, dropwhile_app.
  rewrite (dropwhile_all p (rev w)); [reflexivity | now apply Forall_rev].
Qed.

Lemma dropwhile_end_last (s r : list X) c : dropwhile_end p s = r ++ [c] -> p c = false.
Proof.
  unfold dropwhile_end. intro H.
  assert (E : dropwhile p (rev s) = c :: rev r).
  { rewrite <- (rev_involutive (dropwhile p (rev s))), H, rev_app_distr. reflexivity. }
  now apply dropwhile_head in E.
Qed.

Lemma dropwhile_end_fix (r : list X) c :
  p c = false -> dropwhile_end p (r ++ [c]) = r ++ [c].
Proof.
  intro H. unfold dropwhile_end. rewrite rev_app_distr. simpl. rewrite H.
  simpl. now rewrite rev_involutive.
Qed.

Lemma dropwhile_end_nil : dropwhile_end p [] = [].
Proof. reflexivity. Qed.
End DropwhileEnd.

Lemma list_last_cases {X} (s : list X) : s = [] \/ exists r c, s = r ++ [c].
Proof.
  destruct s as [|x s]; [now left | right].
  destruct (@exists_last _ (x :: s)) as [r [c E]]; [discriminate|].
  now exists r, c.
Qed.

(** ** strip *)

Lemma strip_nil : strip [] = [].
Proof. reflexivity. Qed.

Lemma strip_app_space (s w : str) : all_space w -> strip (s ++ w) = strip s.
Proof.
  intro F. unfold strip, lstrip_by, rstrip_by. rewrite dropwhile_app.
  destruct (dropwhile isspace s) as [|x r] eqn:E.
  - now rewrite (dropwhile_all isspace w F).
  - now apply dropwhile_end_app_all.
Qed.

Lemma strip_rstrip_by (p : N -> bool) (s : str) :
  (forall c, p c = true -> isspace c = true) -> strip (rstrip_by p s) = strip s.
Proof.
  intro Hp. destruct (dropwhile_end_split p s) as [w [E F]].
  rewrite E at 2. unfold rstrip_by. symmetry. apply strip_app_space.
  eapply Forall_impl; [|exact F]. exact Hp.
Qed.

(** Removing the line ending first does not change what [strip] returns. *)
Lemma strip_line_ending (s : str) : strip (rstrip_char CR (rstrip_char LF s)) = strip s.
Proof.
  unfold rstrip_char. rewrite !strip_rstrip_by; [reflexivity | |];
    intros c H; apply N.eqb_eq in H; now subst.
Qed.

Lemma strip_last (s r : str) c : strip s = r ++ [c] -> isspace c = false.
Proof. unfold strip, rstrip_by. apply dropwhile_end_last. Qed.

Lemma strip_head (s r : str) c : strip s = c :: r -> isspace c = false.
Proof.
  unfold strip, lstrip_by, rstrip_by. intro H.
  destruct (dropwhile isspace s) as [|x d] eqn:E; [discriminate|].
  destruct (dropwhile_end_split isspace (x :: d)) as [w [Ew _]].
  rewrite H in Ew. simpl in Ew. inversion Ew; subst.
  now apply dropwhile_head in E.
Qed.

(** A string without white space at either end is left alone. *)
Lemma strip_fix (c : N) (m : str) (d : N) (s : str) :
  isspace c = false -> (s = [c] \/ s = c :: m ++ [d] /\ isspace d = false) -> strip s = s.
Proof.
  intros Hc [->|[-> Hd]]; unfold strip, lstrip_by, rstrip_by; simpl; rewrite Hc.
  - now apply (dropwhile_end_fix isspace []).
  - now apply (dropwhile_end_fix isspace (c :: m)).
Qed.

Lemma strip_ends (s : str) :
  (forall c r, s = c :: r -> isspace c = false) ->
  (forall r c, s = r ++ [c] -> isspace c = false) ->
  strip s = s.
Proof.
  intros Hh Hl. destruct s as [|c r]; [reflexivity|].
  destruct (list_last_cases r) as [->|[m [d ->]]].
  - apply (strip_fix c [] c); [now apply (Hh c []) | now left].
  - apply (strip_fix c m d); [now apply (Hh c (m ++ [d]))|].
    right. split; [reflexivity | now apply (Hl (c :: m))].
Qed.

Lemma strip_idem (s : str) : strip (strip s) = strip s.
Proof.
  apply strip_ends.
  - intros c r H. now apply strip_head in H.
  - intros r c H. now apply strip_last in H.
Qed.

(** What [strip] leaves alone, [rstrip] of white-space characters leaves alone. *)
Lemma stripped_rstrip_by (p : N -> bool) (s : str) :
  (forall c, p c = true -> isspace c = true) -> strip s = s -> rstrip_by p s = s.
Proof.
  intros Hp Hs. destruct (list_last_cases s) as [->|[r [c ->]]]; [reflexivity|].
  apply dropwhile_end_fix. apply strip_last in Hs.
  destruct (p c) eqn:E; [apply Hp in E; congruence | reflexivity].
Qed.

(** ** normalize_lines *)

Lemma normalize_loop_squeeze (lines : list str) (pb : bool) (out : list str) :
  normalize_loop lines pb out = out ++ squeeze pb lines.
Proof.
  revert pb out; induction lines as [|l lines IH]; intros pb out; simpl.
  - now rewrite app_nil_r.
  - rewrite strip_line_ending. destruct (strip l) as [|c t] eqn:E; simpl.
    + rewrite IH. destruct pb; [reflexivity | now rewrite <- app_assoc].
    + rewrite IH. now rewrite <- app_assoc.
Qed.

Lemma normalize_lines_squeeze (lines : list str) :
  normalize_lines lines = dropwhile_end is_blank (squeeze false lines).
Proof. unfold normalize_lines, pop_trailing_blank. now rewrite normalize_loop_squeeze. Qed.

Lemma squeeze_from_input (pb : bool) (lines : list str) :
  Forall (fun l => exists raw, In raw lines /\ l = strip raw) (squeeze pb lines).
Proof.
  revert pb; induction lines as [|l lines IH]; intros pb; simpl; [constructor|].
  assert (W : forall b, Forall (fun l0 => exists raw, (l = raw \/ In raw lines) /\ l0 = strip raw)
                         (squeeze b lines)).
  { intro b. eapply Forall_impl; [|apply (IH b)]. intros a [raw [Hin E]]. exists raw. tauto. }
  destruct (strip l) as [|c t] eqn:E.
  - destruct pb; [apply W|]. constructor; [|apply W]. exists l. split; [now left | now rewrite E].
  - constructor; [|apply W]. exists l. split; [now left | now rewrite E].
Qed.

Lemma squeeze_nonblank (pb : bool) (lines : list str) :
  filter nonblank (squeeze pb lines) = filter nonblank (map strip lines).
Proof.
  revert pb; induction lines as [|l lines IH]; intros pb; simpl; [reflexivity|].
  destruct (strip l) as [|c t] eqn:E; simpl.
  - destruct pb; simpl; apply IH.
  - f_equal. apply IH.
Qed.

Lemma squeeze_true_head (lines : list str) r : squeeze true lines <> [] :: r.
Proof.
  induction lines as [|l lines IH]; simpl; [discriminate|].
  destruct (strip l); [exact IH | discriminate].
Qed.

Lemma squeeze_no_blank_pair (pb : bool) (lines : list str) :
  no_blank_pair (squeeze pb lines).
Proof.
  revert pb; induction lines as [|l lines IH]; intros pb; simpl; [exact I|].
  destruct (strip l) as [|c t] eqn:E.
  - destruct pb; [apply IH|]. simpl. split; [|apply IH].
    destruct (squeeze true lines) as [|b r] eqn:Es; [exact I|].
    intros _ ->. now apply squeeze_true_head in Es.
  - simpl. split; [|apply IH]. destruct (squeeze false lines); [exact I | discriminate].
Qed.

Lemma no_blank_pair_app_l (a b : list str) : no_blank_pair (a ++ b) -> no_blank_pair a.
Proof.
  induction a as [|x a IH]; simpl; [trivial|].
  intros [H1 H2]. split; [|now apply IH].
  destruct a as [|y a]; [exact I | exact H1].
Qed.

Lemma no_blank_pair_spec (l : list str) :
  no_blank_pair l <-> forall a b, l <> a ++ [] :: [] :: b.
Proof.
  split.
  - intros H a b E. subst l. induction a as [|x a IH]; simpl in H.
    + destruct H as [H _]. now apply H.
    + apply IH. tauto.
  - induction l as [|x l IH]; intros H; simpl; [exact I|]. split.
    + destruct l as [|y l]; [exact I|]. intros -> ->. now apply (H [] l).
    + apply IH. intros a b E. apply (H (x :: a) b). simpl. now f_equal.
Qed.

Lemma dropwhile_end_blank_no_trailing (l a : list str) :
  dropwhile_end is_blank l <> a ++ [[]].
Proof. intro H. now apply dropwhile_end_last in H. Qed.

Lemma filter_nonblank_app_blank (l w : list str) :
  Forall (fun c => is_blank c = true) w -> filter nonblank (l ++ w) = filter nonblank l.
Proof.
  intro F. rewrite filter_app. induction F as [|x w Hx _ IH]; simpl.
  - now rewrite app_nil_r.
  - unfold nonblank at 2. rewrite Hx. simpl. exact IH.
Qed.

Lemma squeeze_stripped (pb : bool) (lines : list str) :
  Forall (fun l => strip l = l) (squeeze pb lines).
Proof.
  eapply Forall_impl; [|apply squeeze_from_input].
  intros a [raw [_ ->]]. apply strip_idem.
Qed.

(** C6. The Line Normalizer: every output line is an input line stripped of
    its line ending and of surrounding white space (and has no white space
    left at either end); the non-blank lines are kept, in order; the output
    never has two consecutive blank lines nor a trailing blank line; the
    empty sequence is mapped to the empty sequence. *)
Theorem normalize_lines_contract (lines : list str) :
  (forall l, In l (normalize_lines lines) ->
     exists raw, In raw lines
       /\ l = strip (rstrip_char CR (rstrip_char LF raw)) /\ strip l = l)
  /\ filter nonblank (normalize_lines lines)
     = filter nonblank (map (fun raw => strip (rstrip_char CR (rstrip_char LF raw))) lines)
  /\ (forall a b, normalize_lines lines <> a ++ [] :: [] :: b)
  /\ (forall a, normalize_lines lines <> a ++ [[]])
  /\ normalize_lines [] = [].
Proof.
  rewrite normalize_lines_squeeze.
  destruct (dropwhile_end_split is_blank (squeeze false lines)) as [w [E F]].
  repeat split.
  - intros l Hl.
    assert (Hs : In l (squeeze false lines)) by (rewrite E; apply in_or_app; now left).
    pose proof (squeeze_from_input false lines) as Fi.
    rewrite Forall_forall in Fi. destruct (Fi l Hs) as [raw [Hin ->]].
    exists raw. repeat split; [exact Hin | now rewrite strip_line_ending | apply strip_idem].
  - rewrite <- (filter_nonblank_app_blank _ w F), <- E, squeeze_nonblank.
    f_equal. apply map_ext. intro raw. now rewrite strip_line_ending.
  - apply no_blank_pair_spec. apply (no_blank_pair_app_l _ w). rewrite <- E.
    apply squeeze_no_blank_pair.
  - intro a. apply dropwhile_end_blank_no_trailing.
Qed.

(** ** Dictionaries *)

Lemma dict_get_set (k k' v : str) (d : dict) :
  dict_get k (dict_set k' v d) = if str_eqb k k' then Some v else dict_get k d.
Proof.
  induction d as [|[k0 v0] d IH]; simpl.
  - now destruct (str_eqb k k').
  - destruct (str_eqb k' k0) eqn:E0; simpl.
    + apply str_eqb_eq in E0. subst k0. now destruct (str_eqb k k').
    + destruct (str_eqb k k0) eqn:E1; [|exact IH].
      destruct (str_eqb k k') eqn:E2; [|reflexivity].
      apply str_eqb_eq in E1, E2. subst. now rewrite str_eqb_refl in E0.
Qed.

Lemma dict_get_setdefault (k k' v : str) (d : dict) :
  dict_get k (dict_setdefault k' v d) =
  if str_eqb k k' then
    match dict_get k' d with Some v' => Some v' | None => Some v end
  else dict_get k d.
Proof.
  unfold dict_setdefault. destruct (dict_get k' d) as [v'|] eqn:E.
  - destruct (str_eqb k k') eqn:Ek; [|reflexivity].
    apply str_eqb_eq in Ek. now subst.
  - apply dict_get_set.
Qed.

(** ** build_extinf *)

Lemma extinf_parts_pairs (keys : list str) (attrs : dict) :
  extinf_parts keys attrs = flat_map (pair_of attrs) keys.
Proof.
  induction keys as [|k keys IH]; simpl; [reflexivity|].
  unfold pair_of at 1. destruct (dict_get k attrs) as [[|c v]|]; simpl; now rewrite IH.
Qed.

Lemma extinf_parts_ext (keys : list str) (a1 a2 : dict) :
  (forall k, In k keys -> dict_get k a1 = dict_get k a2) ->
  extinf_parts keys a1 = extinf_parts keys a2.
Proof.
  induction keys as [|k keys IH]; intros H; simpl; [reflexivity|].
  rewrite (H k (or_introl eq_refl)), IH; [reflexivity|].
  intros k' Hk'. apply H. now right.
Qed.

Lemma build_extinf_ext (a1 a2 : dict) (title : str) :
  (forall k, In k EXTINF_KEYS -> dict_get k a1 = dict_get k a2) ->
  build_extinf a1 title = build_extinf a2 title.
Proof. intro H. unfold build_extinf. now rewrite (extinf_parts_ext _ a1 a2 H). Qed.

(** C8. The Metadata Line Builder: the line is the marker [#EXTINF:-1 ],
    the space-joined pairs of the keys tvg-id, tvg-name, tvg-logo and
    group-title in this order, a comma and the title; a key without a value
    (or with an empty one) contributes no pair; the line depends on the
    values of the four keys only, not on the order in which the attributes
    were stored. *)
Theorem build_extinf_canonical (attrs : dict) (title : str) :
  build_extinf attrs title
  = A "#EXTINF:-1 "
      ++ join (A " ") (pair_of attrs (A "tvg-id") ++ pair_of attrs (A "tvg-name")
                       ++ pair_of attrs (A "tvg-logo") ++ pair_of attrs (A "group-title"))
      ++ A "," ++ title
  /\ (forall k, dict_get k attrs = None -> pair_of attrs k = [])
  /\ (forall attrs', (forall k, dict_get k attrs' = dict_get k attrs) ->
        build_extinf attrs' title = build_extinf attrs title)
  /\ (forall k1 v1 k2 v2, k1 <> k2 ->
        build_extinf (dict_set k1 v1 (dict_set k2 v2 attrs)) title
        = build_extinf (dict_set k2 v2 (dict_set k1 v1 attrs)) title).
Proof.
  repeat split.
  - unfold build_extinf. rewrite extinf_parts_pairs. simpl. now rewrite app_nil_r.
  - intros k H. unfold pair_of. now rewrite H.
  - intros attrs' H. apply build_extinf_ext. intros k _. apply H.
  - intros k1 v1 k2 v2 Hne. apply build_extinf_ext. intros k _.
    rewrite !dict_get_set.
    destruct (str_eqb k k1) eqn:E1, (str_eqb k k2) eqn:E2; try reflexivity.
    apply str_eqb_eq in E1, E2. congruence.
Qed.

(** ** The matcher and the declarative matches *)

Section MatcherFacts.
Context {R : Type}.

Lemma star_greedy_sound p pos s (k : nat -> str -> option R) x :
  star_greedy p pos s k = Some x ->
  exists pos' s', star_run p pos s pos' s' /\ k pos' s' = Some x.
Proof.
  revert pos; induction s as [|c s IH]; intros pos; simpl.
  - intro H. exists pos, []. split; [constructor | exact H].
  - destruct (p c) eqn:Hc.
    + destruct (star_greedy p (S pos) s k) as [y|] eqn:E.
      * intro H. inversion H; subst y. destruct (IH _ E) as [pos' [s' [Hr Hk]]].
        exists pos', s'. split; [now constructor | exact Hk].
      * intro H. exists pos, (c :: s). split; [constructor | exact H].
    + intro H. exists pos, (c :: s). split; [constructor | exact H].
Qed.

Lemma star_lazy_sound p pos s (k : nat -> str -> option R) x :
  star_lazy p pos s k = Some x ->
  exists pos' s', star_run p pos s pos' s' /\ k pos' s' = Some x.
Proof.
  revert pos; induction s as [|c s IH]; intros pos; simpl.
  - destruct (k pos []) as [y|] eqn:E; [|discriminate].
    intro H. exists pos, []. split; [constructor | congruence].
  - destruct (k pos (c :: s)) as [y|] eqn:E.
    + intro H. exists pos, (c :: s). split; [constructor | congruence].
    + destruct (p c) eqn:Hc; [|discriminate].
      intro H. destruct (IH _ H) as [pos' [s' [Hr Hk]]].
      exists pos', s'. split; [now constructor | exact Hk].
Qed.

Lemma star_greedy_complete p pos s pos' s' (k : nat -> str -> option R) :
  star_run p pos s pos' s' -> k pos' s' <> None -> star_greedy p pos s k <> None.
Proof.
  induction 1 as [pos s|pos c s pos' s' Hc Hr IH]; intro Hk.
  - destruct s as [|c s]; simpl; [exact Hk|].
    destruct (p c); [|exact Hk].
    destruct (star_greedy p (S pos) s k); [discriminate | exact Hk].
  - simpl. rewrite Hc. specialize (IH Hk).
    destruct (star_greedy p (S pos) s k); [discriminate | contradiction].
Qed.

Lemma star_lazy_complete p pos s pos' s' (k : nat -> str -> option R) :
  star_run p pos s pos' s' -> k pos' s' <> None -> star_lazy p pos s k <> None.
Proof.
  induction 1 as [pos s|pos c s pos' s' Hc Hr IH]; intro Hk.
  - destruct s as [|c s]; simpl; destruct (k pos _); congruence.
  - simpl. destruct (k pos (c :: s)); [discriminate|]. rewrite Hc. now apply IH.
Qed.

(** Whatever the matcher returns comes from a declarative match. *)
Lemma mt_sound r : forall pos s cs (k : nat -> str -> caps -> option R) x,
  mt r pos s cs k = Some x ->
  exists pos' s' cs', mrel r pos s cs pos' s' cs' /\ k pos' s' cs' = Some x.
Proof.
  induction r as [|p|a IHa b IHb|a IHa b IHb|g p|n a IHa| |]; intros pos s cs k x; simpl.
  - intro H. exists pos, s, cs. split; [constructor | exact H].
  - destruct s as [|c s]; [discriminate|]. destruct (p c) eqn:Hc; [|discriminate].
    intro H. exists (S pos), s, cs. split; [now constructor | exact H].
  - intro H. apply IHa in H as [p1 [s1 [c1 [Ha H]]]].
    apply IHb in H as [p2 [s2 [c2 [Hb H]]]].
    exists p2, s2, c2. split; [econstructor; eassumption | exact H].
  - destruct (mt a pos s cs k) as [y|] eqn:E.
    + intro H. inversion H; subst y. apply IHa in E as [p1 [s1 [c1 [Ha Hk]]]].
      exists p1, s1, c1. split; [now apply m_alt_l | exact Hk].
    + intro H. apply IHb in H as [p1 [s1 [c1 [Hb Hk]]]].
      exists p1, s1, c1. split; [now apply m_alt_r | exact Hk].
  - intro H.
    assert (exists pos' s', star_run p pos s pos' s' /\ k pos' s' cs = Some x)
      as [p1 [s1 [Hr Hk]]].
    { destruct g; [apply star_greedy_sound in H | apply star_lazy_sound in H]; exact H. }
    exists p1, s1, cs. split; [now constructor | exact Hk].
  - intro H. apply IHa in H as [p1 [s1 [c1 [Ha Hk]]]].
    exists p1, s1, ((n, firstn (p1 - pos) s) :: c1). split; [now constructor | exact Hk].
  - destruct (Nat.eqb pos 0) eqn:E; [|discriminate]. apply Nat.eqb_eq in E. subst pos.
    intro H. exists 0, s, cs. split; [constructor | exact H].
  - destruct s as [|c [|d s]]; try discriminate.
    + intro H. exists pos, [], cs. split; [constructor | exact H].
    + destruct (c =? 10)%N eqn:E; [|discriminate]. apply N.eqb_eq in E. subst c.
      intro H. exists pos, [10%N], cs. split; [constructor | exact H].
Qed.

(** When some declarative match lets the continuation succeed, the
    matcher succeeds (possibly through a match of higher priority). *)
Lemma mt_complete r pos s cs pos' s' cs' :
  mrel r pos s cs pos' s' cs' ->
  forall k : nat -> str -> caps -> option R,
    k pos' s' cs' <> None -> mt r pos s cs k <> None.
Proof.
  induction 1; intros k Hk; simpl.
  - exact Hk.
  - now rewrite H.
  - apply IHmrel1. now apply IHmrel2.
  - specialize (IHmrel k Hk). destruct (mt a pos s cs k); [discriminate | contradiction].
  - destruct (mt a pos s cs k); [discriminate | now apply IHmrel].
  - destruct g; [eapply star_greedy_complete | eapply star_lazy_complete]; eassumption.
  - now apply IHmrel.
  - exact Hk.
  - exact Hk.
  - exact Hk.
Qed.
End MatcherFacts.

Lemma star_run_text p pos s pos' s' :
  star_run p pos s pos' s' ->
  exists m, s = m ++ s' /\ pos' = pos + List.length m /\ Forall (fun c => p c = true) m.
Proof.
  induction 1 as [pos s|pos c s pos' s' Hc Hr [m [E [Ep F]]]].
  - exists []. simpl. repeat split; [lia | constructor].
  - exists (c :: m). simpl. repeat split; [now f_equal | lia | now constructor].
Qed.

Lemma star_run_app p pos m s :
  Forall (fun c => p c = true) m -> star_run p pos (m ++ s) (pos + List.length m) s.
Proof.
  intro F. revert pos. induction F as [|c m Hc _ IH]; intros pos; simpl.
  - rewrite Nat.add_0_r. constructor.
  - constructor; [exact Hc|]. replace (pos + S (List.length m)) with (S pos + List.length m) by lia.
    apply IH.
Qed.

(** A match reads a prefix of the text and advances by its length. *)
Lemma mrel_text r pos s cs pos' s' cs' :
  mrel r pos s cs pos' s' cs' ->
  exists m, s = m ++ s' /\ pos' = pos + List.length m.
Proof.
  induction 1.
  - exists []. split; [reflexivity | simpl; lia].
  - exists [c]. split; [reflexivity | simpl; lia].
  - destruct IHmrel1 as [m1 [E1 P1]], IHmrel2 as [m2 [E2 P2]].
    exists (m1 ++ m2). rewrite <- app_assoc, <- E2, <- E1. split; [reflexivity|].
    rewrite length_app. lia.
  - exact IHmrel.
  - exact IHmrel.
  - apply star_run_text in H as [m [E [P _]]]. now exists m.
  - exact IHmrel.
  - exists []. split; [reflexivity | simpl; lia].
  - exists []. split; [reflexivity | simpl; lia].
  - exists []. split; [reflexivity | simpl; lia].
Qed.

Lemma match_here_sound r pos s e s' cs :
  match_here r pos s = Some (e, s', cs) -> mrel r pos s [] e s' cs.
Proof.
  unfold match_here. intro H. apply mt_sound in H as [p1 [s1 [c1 [Hm Hk]]]].
  now inversion Hk; subst.
Qed.

Lemma match_here_complete r pos s e s' cs :
  mrel r pos s [] e s' cs -> match_here r pos s <> None.
Proof. intro H. unfold match_here. eapply mt_complete; [exact H | discriminate]. Qed.

Lemma search_from_sound r : forall s pos x,
  search_from r pos s = Some x ->
  exists pre suf, s = pre ++ suf /\ match_here r (pos + List.length pre) suf = Some x.
Proof.
  induction s as [|c s IH]; intros pos x; simpl.
  - destruct (match_here r pos []) eqn:E; [|discriminate].
    intro H. exists [], []. simpl. rewrite Nat.add_0_r. split; [reflexivity | congruence].
  - destruct (match_here r pos (c :: s)) eqn:E.
    + intro H. exists [], (c :: s). simpl. rewrite Nat.add_0_r. split; [reflexivity | congruence].
    + intro H. apply IH in H as [pre [suf [Es Hm]]].
      exists (c :: pre), suf. simpl. split; [now f_equal|].
      replace (pos + S (List.length pre)) with (S pos + List.length pre) by lia. exact Hm.
Qed.

Lemma search_from_complete r : forall pre pos suf,
  match_here r (pos + List.length pre) suf <> None ->
  search_from r pos (pre ++ suf) <> None.
Proof.
  induction pre as [|c pre IH]; intros pos suf; simpl.
  - rewrite Nat.add_0_r. intro H. destruct suf; simpl; destruct (match_here r pos _); congruence.
  - intro H. destruct (match_here r pos (c :: pre ++ suf)); [discriminate|].
    apply IH. replace (S pos + List.length pre) with (pos + S (List.length pre)) by lia. exact H.
Qed.

(** [rx.search(t)] finds something exactly when [rx] matches somewhere. *)
Lemma re_search_iff r t :
  re_search r t = true <->
  exists pre suf e s' cs, t = pre ++ suf /\ mrel r (List.length pre) suf [] e s' cs.
Proof.
  unfold re_search. split.
  - destruct (search_from r 0 t) as [[[e s'] cs]|] eqn:E; [|discriminate].
    intros _. apply search_from_sound in E as [pre [suf [Et Hm]]].
    exists pre, suf, e, s', cs. split; [exact Et | now apply match_here_sound].
  - intros [pre [suf [e [s' [cs [-> Hm]]]]]].
    apply match_here_complete in Hm.
    apply (search_from_complete r pre 0 suf) in Hm.
    now destruct (search_from r 0 (pre ++ suf)).
Qed.

(** ** sanitize_id *)

Lemma star_greedy_always p (cs : caps) : forall s pos,
  exists n, star_greedy p pos s (fun e s' => Some (e, s', cs))
            = Some (pos + n, dropwhile p s, cs).
Proof.
  induction s as [|c s IH]; intros pos; simpl.
  - exists 0. now rewrite Nat.add_0_r.
  - destruct (p c) eqn:Hc.
    + destruct (IH (S pos)) as [n E]. rewrite E. exists (S n).
      now replace (pos + S n) with (S pos + n) by lia.
    + exists 0. now rewrite Nat.add_0_r.
Qed.

Lemma match_here_space_run pos c s :
  match_here (Plus true isspace) pos (c :: s) =
  if isspace c then
    match match_here (Plus true isspace) pos (c :: s) with
    | Some (e, _, _) => Some (e, dropwhile isspace s, [])
    | None => None
    end
  else None.
Proof.
  unfold match_here, Plus. simpl. destruct (isspace c); [|reflexivity].
  destruct (star_greedy_always isspace [] s (S pos)) as [n E]. now rewrite E.
Qed.

Lemma match_here_space_end pos c s e s' cs :
  match_here (Plus true isspace) pos (c :: s) = Some (e, s', cs) ->
  isspace c = true /\ s' = dropwhile isspace s /\ Nat.eqb e pos = false.
Proof.
  unfold match_here, Plus. simpl. destruct (isspace c); [|discriminate].
  destruct (star_greedy_always isspace [] s (S pos)) as [n E]. rewrite E.
  intro H. inversion H; subst. repeat split. apply Nat.eqb_neq. lia.
Qed.

Lemma dots_for_space_run (s : str) :
  dots_for_space true s = dots_for_space false (dropwhile isspace s).
Proof.
  induction s as [|c s IH]; simpl; [reflexivity|].
  destruct (isspace c) eqn:Hc; [exact IH|]. simpl. now rewrite Hc.
Qed.

Lemma sub_space_runs : forall fuel pos s,
  List.length s < fuel ->
  sub_from fuel (Plus true isspace) (A ".") pos s = dots_for_space false s.
Proof.
  induction fuel as [|fuel IH]; intros pos s Hlen; [lia|].
  destruct s as [|c s]; [reflexivity|]. simpl in Hlen.
  cbn [sub_from dots_for_space].
  destruct (match_here (Plus true isspace) pos (c :: s)) as [[[e s'] cs]|] eqn:E.
  - apply match_here_space_end in E as [Hc [-> He]]. rewrite He, Hc.
    rewrite dots_for_space_run. change (A "." ++ ?x) with (46%N :: x). f_equal.
    apply IH. pose proof (dropwhile_length isspace s). lia.
  - rewrite match_here_space_run in E. destruct (isspace c) eqn:Hc.
    + unfold match_here, Plus in E. simpl in E. rewrite Hc in E.
      destruct (star_greedy_always isspace [] s (S pos)) as [n En]. rewrite En in E.
      discriminate.
    + f_equal. apply IH. lia.
Qed.

Lemma sub_class_filter (ok : N -> bool) : forall fuel pos s,
  List.length s < fuel ->
  sub_from fuel (Chr (fun c => negb (ok c))) [] pos s = filter ok s.
Proof.
  induction fuel as [|fuel IH]; intros pos s Hlen; [lia|].
  destruct s as [|c s]; [reflexivity|]. simpl in Hlen.
  cbn [sub_from filter]. unfold match_here. cbn [mt].
  destruct (ok c); cbn [negb].
  - f_equal. apply IH. lia.
  - replace (Nat.eqb (S pos) pos) with false by (symmetry; apply Nat.eqb_neq; lia).
    simpl. apply IH. lia.
Qed.

Lemma sanitize_id_rule (name : str) : sanitize_id name = sanitize_rule name.
Proof.
  unfold sanitize_id, sanitize_rule, re_sub.
  rewrite sub_space_runs by lia. rewrite sub_class_filter by lia.
  now destruct (filter id_char (dots_for_space false (strip name))).
Qed.

Lemma sanitize_id_nonempty (name : str) : sanitize_id name <> [].
Proof.
  rewrite sanitize_id_rule. unfold sanitize_rule.
  destruct (filter id_char _); discriminate.
Qed.

Lemma sanitize_id_chars (name : str) :
  Forall (fun c => id_char c = true) (sanitize_id name).
Proof.
  rewrite sanitize_id_rule. unfold sanitize_rule.
  destruct (filter id_char (dots_for_space false (strip name))) as [|c r] eqn:E.
  - vm_compute. repeat constructor.
  - rewrite <- E. apply Forall_forall. intros x Hx. now apply filter_In in Hx.
Qed.


(** ** Searching keywords *)

Lemma anywhere_iff (P : str -> bool) (t : str) :
  anywhere P t = true <-> exists pre suf, t = pre ++ suf /\ P suf = true.
Proof.
  induction t as [|c t IH]; simpl.
  - rewrite orb_false_r. split.
    + intro H. now exists [], [].
    + intros [pre [suf [E H]]]. symmetry in E. apply app_eq_nil in E as [_ ->]. exact H.
  - rewrite orb_true_iff, IH. split.
    + intros [H|[pre [suf [-> H]]]].
      * now exists [], (c :: t).
      * now exists (c :: pre), suf.
    + intros [[|d pre] [suf [E H]]]; simpl in E.
      * left. now subst suf.
      * right. inversion E; subst. now exists pre, suf.
Qed.

Lemma anywhere_ext (P P' : str -> bool) (t : str) :
  (forall s, P s = P' s) -> anywhere P t = anywhere P' t.
Proof. intro H. induction t as [|c t IH]; simpl; rewrite H; [reflexivity | now rewrite IH]. Qed.

Lemma anywhere_or (P P' : str -> bool) (t : str) :
  anywhere (fun s => P s || P' s) t = anywhere P t || anywhere P' t.
Proof.
  induction t as [|c t IH]; simpl.
  - now rewrite !orb_false_r.
  - rewrite IH. destruct (P (c :: t)), (P' (c :: t)), (anywhere P t); reflexivity.
Qed.

(** A search succeeds exactly where a match can start. *)
Lemma re_search_anywhere (r : re) (P : str -> bool) :
  (forall pos s, (exists e s' cs, mrel r pos s [] e s' cs) <-> P s = true) ->
  forall t, re_search r t = anywhere P t.
Proof.
  intros H t. apply eq_true_iff_eq. rewrite re_search_iff, anywhere_iff. split.
  - intros [pre [suf [e [s' [cs [E Hm]]]]]]. exists pre, suf. split; [exact E|].
    apply (H (List.length pre)). now exists e, s', cs.
  - intros [pre [suf [E HP]]]. apply (H (List.length pre)) in HP as [e [s' [cs Hm]]].
    now exists pre, suf, e, s', cs.
Qed.

(** Inversion of the declarative matches, one lemma per construct. *)

Lemma mrel_eps_inv pos s cs pos' s' cs' :
  mrel Eps pos s cs pos' s' cs' -> pos' = pos /\ s' = s /\ cs' = cs.
Proof. inversion 1; subst; auto. Qed.

Lemma mrel_chr_inv p pos s cs pos' s' cs' :
  mrel (Chr p) pos s cs pos' s' cs' ->
  exists c, s = c :: s' /\ p c = true /\ pos' = S pos /\ cs' = cs.
Proof. inversion 1; subst. eexists; eauto. Qed.

Lemma mrel_seq_inv a b pos s cs pos2 s2 cs2 :
  mrel (Seq a b) pos s cs pos2 s2 cs2 ->
  exists pos1 s1 cs1, mrel a pos s cs pos1 s1 cs1 /\ mrel b pos1 s1 cs1 pos2 s2 cs2.
Proof. inversion 1; subst. eauto 6. Qed.

Lemma mrel_alt_inv a b pos s cs pos' s' cs' :
  mrel (Alt a b) pos s cs pos' s' cs' ->
  mrel a pos s cs pos' s' cs' \/ mrel b pos s cs pos' s' cs'.
Proof. inversion 1; subst; auto. Qed.

Lemma mrel_star_inv g p pos s cs pos' s' cs' :
  mrel (Star g p) pos s cs pos' s' cs' -> star_run p pos s pos' s' /\ cs' = cs.
Proof. inversion 1; subst; auto. Qed.

Lemma mrel_grp_inv n a pos s cs pos' s' cs' :
  mrel (Grp n a) pos s cs pos' s' cs' ->
  exists cs1, mrel a pos s cs pos' s' cs1 /\ cs' = (n, firstn (pos' - pos) s) :: cs1.
Proof. inversion 1; subst. eauto. Qed.

Lemma mrel_bol_inv pos s cs pos' s' cs' :
  mrel Bol pos s cs pos' s' cs' -> pos = 0 /\ pos' = 0 /\ s' = s /\ cs' = cs.
Proof. inversion 1; subst; auto. Qed.

Lemma mrel_eol_inv pos s cs pos' s' cs' :
  mrel Eol pos s cs pos' s' cs' ->
  pos' = pos /\ s' = s /\ cs' = cs /\ (s = [] \/ s = [10%N]).
Proof. inversion 1; subst; auto. Qed.

Section Keywords.
Variable U : unicode_db.

Lemma mrel_lits_i w : forall pos s cs pos' s' cs',
  mrel (lits_i U w) pos s cs pos' s' cs' <->
  ci_prefix U w s = true /\ s' = skipn (List.length w) s
  /\ pos' = pos + List.length w /\ cs' = cs.
Proof.
  induction w as [|c w IH]; intros pos s cs pos' s' cs'; simpl.
  - split.
    + intro H. apply mrel_eps_inv in H as [-> [-> ->]]. repeat split. lia.
    + intros [_ [-> [-> ->]]]. rewrite Nat.add_0_r. constructor.
  - split.
    + intro H. apply mrel_seq_inv in H as [p1 [s1 [c1 [Ha Hb]]]].
      apply mrel_chr_inv in Ha as [x [-> [Hx [-> ->]]]]. rewrite Hx. simpl.
      apply IH in Hb as [Hp [-> [-> ->]]]. repeat split; [exact Hp | lia].
    + destruct s as [|x s]; [intros [? _]; discriminate|].
      intros [Hp [-> [-> ->]]]. apply andb_true_iff in Hp as [Hx Hp].
      econstructor; [now constructor|]. apply IH. repeat split; [exact Hp | lia].
Qed.

Lemma ci_prefix_app w1 w2 : forall s,
  ci_prefix U (w1 ++ w2) s
  = ci_prefix U w1 s && ci_prefix U w2 (skipn (List.length w1) s).
Proof.
  induction w1 as [|c w1 IH]; intros s; simpl; [reflexivity|].
  destruct s as [|x s]; [reflexivity|]. now rewrite IH, andb_assoc.
Qed.

Lemma re_search_lits w t : re_search (lits_i U w) t = ci_infix U w t.
Proof.
  apply re_search_anywhere. intros pos s. split.
  - intros [e [s' [cs H]]]. now apply mrel_lits_i in H.
  - intro H. exists (pos + List.length w), (skipn (List.length w) s), [].
    apply mrel_lits_i. now repeat split.
Qed.

Lemma re_search_alt a b t : re_search (Alt a b) t = re_search a t || re_search b t.
Proof.
  apply eq_true_iff_eq. rewrite orb_true_iff, !re_search_iff. split.
  - intros [pre [suf [e [s' [cs [E H]]]]]]. apply mrel_alt_inv in H as [H|H];
      [left | right]; now exists pre, suf, e, s', cs.
  - intros [[pre [suf [e [s' [cs [E H]]]]]]|[pre [suf [e [s' [cs [E H]]]]]]];
      exists pre, suf, e, s', cs; split; trivial; [now apply m_alt_l | now apply m_alt_r].
Qed.

(** A keyword with an optional letter, as in [yede?k]. *)
Lemma re_search_optional w1 c w2 t :
  re_search (Seq (lits_i U w1) (Seq (Alt (lit_i U c) Eps) (lits_i U w2))) t
  = ci_infix U (w1 ++ c :: w2) t || ci_infix U (w1 ++ w2) t.
Proof.
  unfold ci_infix. rewrite <- anywhere_or. apply re_search_anywhere.
  intros pos s. rewrite orb_true_iff, !ci_prefix_app. split.
  - intros [e [s' [cs H]]]. apply mrel_seq_inv in H as [p1 [s1 [c1 [H1 H2]]]].
    apply mrel_lits_i in H1 as [Hp [-> [-> ->]]]. rewrite Hp. simpl.
    apply mrel_seq_inv in H2 as [p2 [s2 [c2 [H2 H3]]]].
    apply mrel_lits_i in H3 as [Hp2 _].
    apply mrel_alt_inv in H2 as [H2|H2].
    + left. apply mrel_chr_inv in H2 as [x [E [Hx _]]]. rewrite E.
      unfold lit_i in Hx. now rewrite Hx, Hp2.
    + right. apply mrel_eps_inv in H2 as [_ [-> _]]. exact Hp2.
  - intros [H|H]; apply andb_true_iff in H as [H1 H2].
    + simpl in H2. destruct (skipn (List.length w1) s) as [|x s1] eqn:Es; [discriminate|].
      apply andb_true_iff in H2 as [Hx H2].
      exists (S (pos + List.length w1) + List.length w2), (skipn (List.length w2) s1), [].
      econstructor; [apply mrel_lits_i; now repeat split|]. rewrite Es.
      econstructor; [apply m_alt_l; now constructor|].
      apply mrel_lits_i. now repeat split.
    + exists (pos + List.length w1 + List.length w2),
        (skipn (List.length w2) (skipn (List.length w1) s)), [].
      econstructor; [apply mrel_lits_i; now repeat split|].
      econstructor; [apply m_alt_r; constructor|].
      apply mrel_lits_i. now repeat split.
Qed.
End Keywords.

(** ** The Section Classifier *)

(** Case analysis on every comparison of code points in sight. *)
Ltac ncases :=
  repeat match goal with
    | |- context [(?a <=? ?b)%N] => destruct (N.leb_spec a b)
    | |- context [(?a <? ?b)%N] => destruct (N.ltb_spec a b)
    | H : context [(?a <=? ?b)%N] |- _ => destruct (N.leb_spec a b)
    | H : context [(?a <? ?b)%N] |- _ => destruct (N.ltb_spec a b)
    end.

Section Classifier.
Variable U : unicode_db.

(** The compiled patterns look for the keywords of [KEYWORDS]. *)
Lemma first_section_classify (title : str) :
  first_section (SECTION_KEYWORDS U) title = classify U KEYWORDS title.
Proof.
  unfold SECTION_KEYWORDS, KEYWORDS. cbn [first_section classify existsb alts].
  rewrite !re_search_alt, re_search_optional, !re_search_lits.
  rewrite !orb_false_r.
  change (A "yed" ++ 101%N :: A "k") with (A "yedek").
  change (A "yed" ++ A "k") with (A "yedk").
  rewrite <- (orb_assoc (ci_infix U (A "yedek") title)).
  reflexivity.
Qed.

Lemma ci_infix_app_l (w x t : str) :
  ci_infix U (w ++ x) t = true -> ci_infix U w t = true.
Proof.
  unfold ci_infix. rewrite !anywhere_iff. intros [pre [suf [E H]]].
  exists pre, suf. split; [exact E|].
  rewrite ci_prefix_app in H. now apply andb_true_iff in H as [H _].
Qed.

(** Every title the movies pattern matches, the cinema pattern matches. *)
Lemma movies_within_cinema (title : str) :
  existsb (fun w => ci_infix U w title)
          [A "filmler"; A "filmler " ++ [127916%N]; A "filmler"] = true ->
  existsb (fun w => ci_infix U w title)
          [A "sinema"; A "filmler"; A "sinemalar"] = true.
Proof.
  cbn [existsb]. rewrite !orb_false_r, !orb_true_iff.
  intros [H|[H|H]]; right; left; trivial.
  change (A "filmler " ++ [127916%N]) with (A "filmler" ++ (32%N :: [127916%N])) in H.
  now apply ci_infix_app_l in H.
Qed.

Lemma classify_not_movies (title : str) : classify U KEYWORDS title <> Some FILMLER.
Proof.
  unfold KEYWORDS. cbn [classify].
  match goal with |- (if ?b then _ else _) <> _ => destruct b eqn:E1 end;
    [discriminate|].
  do 3 (match goal with |- (if ?b then _ else _) <> _ => destruct b end;
        [discriminate|]).
  match goal with |- (if ?b then _ else _) <> _ => destruct b eqn:E5 end;
    [|discriminate].
  apply movies_within_cinema in E5. congruence.
Qed.

Lemma same_case_tolower (c d : N) : same_case c d -> tolower U c = tolower U d.
Proof.
  unfold same_case, ascii_fold, tolower, is_ascii, is_upper_az.
  destruct (N.leb_spec 65 c), (N.leb_spec c 90), (N.leb_spec 65 d), (N.leb_spec d 90),
    (N.ltb_spec c 128), (N.ltb_spec d 128); simpl; intro E; subst; try lia; reflexivity.
Qed.

Lemma same_case_eqb (k c d : N) :
  iscased U k = false -> same_case c d -> (k =? c)%N = (k =? d)%N.
Proof.
  intros Hk H.
  destruct (N.eqb_spec k c) as [Ekc|Nkc], (N.eqb_spec k d) as [Ekd|Nkd];
    try reflexivity; exfalso; subst;
    unfold same_case, ascii_fold, iscased, is_ascii, is_upper_az, is_lower_az in *;
    ncases; simpl in *; try discriminate; lia.
Qed.

Lemma ci_char_same_case (k c d : N) : same_case c d -> ci_char U k c = ci_char U k d.
Proof.
  intro H. unfold ci_char. destruct (iscased U k) eqn:Hk.
  - now rewrite (same_case_tolower c d H).
  - now apply same_case_eqb.
Qed.

Lemma ci_prefix_same_case (w : str) : forall s s',
  Forall2 same_case s s' -> ci_prefix U w s = ci_prefix U w s'.
Proof.
  induction w as [|k w IH]; intros s s' F; simpl; [reflexivity|].
  destruct F as [|c d s s' Hcd F]; [reflexivity|].
  now rewrite (ci_char_same_case k c d Hcd), (IH s s' F).
Qed.

Lemma ci_infix_same_case (w s s' : str) :
  Forall2 same_case s s' -> ci_infix U w s = ci_infix U w s'.
Proof.
  unfold ci_infix. induction 1 as [|c d s s' Hcd F IH]; [reflexivity|].
  cbn [anywhere]. rewrite IH. f_equal. apply ci_prefix_same_case. now constructor.
Qed.

Lemma classify_same_case (tbl : list (str * list str)) (s s' : str) :
  Forall2 same_case s s' -> classify U tbl s = classify U tbl s'.
Proof.
  intro F. induction tbl as [|[cat kws] tbl IH]; simpl; [reflexivity|].
  rewrite IH. replace (existsb (fun w => ci_infix U w s) kws)
    with (existsb (fun w => ci_infix U w s') kws); [reflexivity|].
  induction kws as [|w kws IHk]; simpl; [reflexivity|].
  now rewrite IHk, (ci_infix_same_case w s s' F).
Qed.
End Classifier.

Lemma first_section_some (kws : list (str * re)) (t cat : str) :
  first_section kws t = Some cat <->
  exists before rx after,
    kws = before ++ (cat, rx) :: after
    /\ re_search rx t = true
    /\ Forall (fun e => re_search (snd e) t = false) before.
Proof.
  induction kws as [|[key rx] kws IH]; simpl.
  - split; [discriminate | intros [[|? ?] [? [? [E _]]]]; discriminate].
  - destruct (re_search rx t) eqn:E.
    + split.
      * intro H. inversion H; subst. exists [], rx, kws. now repeat split.
      * intros [[|[k0 r0] before] [rx' [after [Ek [Hs F]]]]]; simpl in Ek; inversion Ek; subst.
        -- reflexivity.
        -- inversion F; subst. simpl in *. congruence.
    + rewrite IH. split.
      * intros [before [rx' [after [-> [Hs F]]]]]. exists ((key, rx) :: before), rx', after.
        repeat split; trivial. now constructor.
      * intros [[|[k0 r0] before] [rx' [after [Ek [Hs F]]]]]; simpl in Ek; inversion Ek; subst.
        -- congruence.
        -- inversion F; subst. now exists before, rx', after.
Qed.

Lemma first_section_none (kws : list (str * re)) (t : str) :
  first_section kws t = None <-> Forall (fun e => re_search (snd e) t = false) kws.
Proof.
  induction kws as [|[key rx] kws IH]; simpl.
  - split; [constructor | reflexivity].
  - destruct (re_search rx t) eqn:E.
    + split; [discriminate | intro F; inversion F; subst; simpl in *; congruence].
    + rewrite IH. split; [now constructor | intro F; now inversion F].
Qed.

Lemma detect_section_unfold (U : unicode_db) (line : str) :
  detect_section_from_extinf U line
  = first_section (SECTION_KEYWORDS U) (snd (parse_extinf_attrs U line)).
Proof. unfold detect_section_from_extinf. now destruct (parse_extinf_attrs U line). Qed.

(** C4. The Section Classifier tests the title against the ordered list of
    patterns (cinema, documentary, backup, round-the-clock, movies) and
    returns the category of the first pattern that matches, or nothing when
    none does; a pattern matches when one of its keywords occurs in the
    title, the case of letters being ignored; the title [Sinema Kanali]
    (with a dotless i) without attributes is classified as cinema. *)
Theorem detect_section_first_match (U : unicode_db) (line : str) :
  let title := snd (parse_extinf_attrs U line) in
  map fst (SECTION_KEYWORDS U) = [SINEMALAR; BELGESEL; YEDEK; K724; FILMLER]
  /\ (forall cat, detect_section_from_extinf U line = Some cat <->
        exists before rx after,
          SECTION_KEYWORDS U = before ++ (cat, rx) :: after
          /\ re_search rx title = true
          /\ Forall (fun e => re_search (snd e) title = false) before)
  /\ (detect_section_from_extinf U line = None <->
        Forall (fun e => re_search (snd e) title = false) (SECTION_KEYWORDS U))
  /\ detect_section_from_extinf U line = classify U KEYWORDS title
  /\ (forall t t', Forall2 same_case t t' ->
        classify U KEYWORDS t = classify U KEYWORDS t')
  /\ detect_section_from_extinf U (A "#EXTINF:-1,Sinema Kanal" ++ [305%N])
     = Some SINEMALAR.
Proof.
  intro title. subst title. rewrite detect_section_unfold. repeat split.
  - apply first_section_some.
  - apply first_section_some.
  - apply first_section_none.
  - apply first_section_none.
  - apply first_section_classify.
  - intros t t'. apply classify_same_case.
Qed.

(** C10. The Section Classifier never returns the movies category: a title
    that the movies pattern (fifth in the list) matches is matched by the
    cinema pattern, which is tested first. *)
Theorem detect_section_never_movies (U : unicode_db) (line : str) :
  detect_section_from_extinf U line <> Some FILMLER
  /\ nth_error (SECTION_KEYWORDS U) 4
     = Some (FILMLER, alts [lits_i U (A "filmler");
                            lits_i U (A "filmler " ++ [127916%N]);
                            lits_i U (A "filmler")])
  /\ forall title rx1 rx5,
       nth_error (SECTION_KEYWORDS U) 0 = Some (SINEMALAR, rx1) ->
       nth_error (SECTION_KEYWORDS U) 4 = Some (FILMLER, rx5) ->
       re_search rx5 title = true -> re_search rx1 title = true.
Proof.
  repeat split.
  - rewrite detect_section_unfold, first_section_classify. apply classify_not_movies.
  - intros title rx1 rx5 H1 H5.
    assert (E1 : rx1 = alts [lits_i U (A "sinema"); lits_i U (A "filmler");
                             lits_i U (A "sinemalar")])
      by (unfold SECTION_KEYWORDS in H1; cbn [nth_error] in H1; congruence).
    assert (E5 : rx5 = alts [lits_i U (A "filmler");
                             lits_i U (A "filmler " ++ [127916%N]);
                             lits_i U (A "filmler")])
      by (unfold SECTION_KEYWORDS in H5; cbn [nth_error] in H5; congruence).
    rewrite E1, E5. clear. cbn [alts]. rewrite !re_search_alt, !re_search_lits. intro H.
    pose proof (movies_within_cinema U title) as M. cbn [existsb] in M.
    rewrite !orb_false_r in M. apply M. exact H.
Qed.

(** ** parse_extinf_attrs: the keys it can return *)

Section AttrKeys.
Variable U : unicode_db.

(** The first group of a match of [ATTR_RE] consists of word characters. *)
Lemma attr_re_key pos s e s' cs :
  mrel (ATTR_RE U) pos s [] e s' cs ->
  Forall (fun c => is_word U c = true) (group 1 cs).
Proof.
  unfold ATTR_RE, Plus, lit. intro H.
  apply mrel_seq_inv in H as [p1 [s1 [c1 [Hk H]]]].
  apply mrel_grp_inv in Hk as [c0 [Hk ->]].
  apply mrel_seq_inv in Hk as [p0 [s0 [c00 [Hc Hs]]]].
  apply mrel_chr_inv in Hc as [c [-> [Hc [-> ->]]]].
  apply mrel_star_inv in Hs as [Hs ->].
  apply star_run_text in Hs as [m [-> [-> Fm]]].
  apply mrel_seq_inv in H as [p2 [s2 [c2 [He H]]]].
  apply mrel_chr_inv in He as [x2 [_ [_ [_ ->]]]].
  apply mrel_seq_inv in H as [p3 [s3 [c3 [Hq H]]]].
  apply mrel_chr_inv in Hq as [x3 [_ [_ [_ ->]]]].
  apply mrel_seq_inv in H as [p4 [s4 [c4 [Hv H]]]].
  apply mrel_grp_inv in Hv as [c5 [Hv ->]].
  apply mrel_star_inv in Hv as [_ ->].
  apply mrel_chr_inv in H as [x4 [_ [_ [_ ->]]]].
  cbn [group Nat.eqb].
  replace (S pos + List.length m - pos) with (S (List.length m)) by lia.
  cbn [firstn]. rewrite firstn_app, firstn_all, Nat.sub_diag. simpl. rewrite app_nil_r.
  now constructor.
Qed.

Lemma findall_attr_keys : forall fuel pos s k v,
  In (k, v) (findall_from fuel (ATTR_RE U) pos s) ->
  Forall (fun c => is_word U c = true) k.
Proof.
  induction fuel as [|fuel IH]; intros pos s k v; simpl; [tauto|].
  destruct (search_from (ATTR_RE U) pos s) as [[[e s'] cs]|] eqn:E; [|simpl; tauto].
  intros [H|H].
  - inversion H; subst. apply search_from_sound in E as [pre [suf [_ Hm]]].
    apply match_here_sound in Hm. eapply attr_re_key. exact Hm.
  - eapply IH. exact H.
Qed.

Lemma dict_of_pairs_keys (ps : list (str * str)) (k : str) :
  dict_get k (dict_of_pairs ps) <> None -> In k (map fst ps).
Proof.
  unfold dict_of_pairs.
  assert (G : forall d, dict_get k (fold_left (fun d kv => dict_set (fst kv) (snd kv) d) ps d)
                        <> None -> In k (map fst ps) \/ dict_get k d <> None).
  { induction ps as [|[k0 v0] ps IH]; intros d; simpl; [now right|].
    intro H. apply IH in H as [H|H]; [now left; right|].
    rewrite dict_get_set in H. simpl in H.
    destruct (str_eqb k k0) eqn:E; [apply str_eqb_eq in E; now left; left | now right]. }
  intro H. apply G in H as [H|H]; [exact H | now simpl in H].
Qed.

(** No key with a character outside [\w] (a hyphen, say) is ever parsed. *)
Lemma parse_attrs_word_keys (line k : str) (c : N) :
  In c k -> is_word U c = false ->
  dict_get k (fst (parse_extinf_attrs U line)) = None.
Proof.
  intros Hc Hw. unfold parse_extinf_attrs. cbn [fst].
  destruct (dict_get k (dict_of_pairs (re_findall (ATTR_RE U) line))) as [v|] eqn:E;
    [exfalso | reflexivity].
  assert (Hin : In k (map fst (re_findall (ATTR_RE U) line))).
  { apply dict_of_pairs_keys. congruence. }
  apply in_map_iff in Hin as [[k' v'] [Ek Hin]]. simpl in Ek. subst k'.
  apply findall_attr_keys in Hin. rewrite Forall_forall in Hin.
  specialize (Hin c Hc). congruence.
Qed.

Lemma parse_attrs_extinf_keys (line k : str) :
  In k EXTINF_KEYS -> dict_get k (fst (parse_extinf_attrs U line)) = None.
Proof.
  intro Hk. apply (parse_attrs_word_keys line k 45%N); [|reflexivity].
  simpl in Hk. destruct Hk as [<-|[<-|[<-|[<-|[]]]]]; vm_compute; tauto.
Qed.
End AttrKeys.

(** ** The attributes filled in by the loop *)

(** Comparison of two literal keys. *)
Ltac key_eqb :=
  repeat match goal with
    | |- context [str_eqb (A ?a) (A ?b)] =>
        let v := eval vm_compute in (str_eqb (A a) (A b)) in
        change (str_eqb (A a) (A b)) with v
    end.

Section Filling.
Variable U : unicode_db.
Variable attrs : dict.
Hypothesis fresh : forall k, In k EXTINF_KEYS -> dict_get k attrs = None.

Local Lemma fresh_id : dict_get (A "tvg-id") attrs = None.
Proof. apply fresh. vm_compute. tauto. Qed.
Local Lemma fresh_name : dict_get (A "tvg-name") attrs = None.
Proof. apply fresh. vm_compute. tauto. Qed.
Local Lemma fresh_logo : dict_get (A "tvg-logo") attrs = None.
Proof. apply fresh. vm_compute. tauto. Qed.
Local Lemma fresh_group : dict_get (A "group-title") attrs = None.
Proof. apply fresh. vm_compute. tauto. Qed.

Lemma section_attrs_line (title sec : str) :
  build_extinf (section_attrs attrs title sec) title = section_line title sec.
Proof.
  apply build_extinf_ext. intros k Hk. unfold section_attrs.
  simpl in Hk. destruct Hk as [<-|[<-|[<-|[<-|[]]]]];
    rewrite !dict_get_setdefault; key_eqb;
    rewrite ?fresh_id, ?fresh_name, ?fresh_logo, ?fresh_group; reflexivity.
Qed.

Lemma resolve_group_fresh (cg : option str) : resolve_group attrs cg = group_of cg.
Proof. unfold resolve_group. now rewrite fresh_group. Qed.

Lemma entry_attrs_get (title : str) (url cg : option str) (k : str) :
  In k EXTINF_KEYS ->
  dict_get k (entry_attrs U attrs title url cg)
  = dict_get k (canon (sanitize_id (name_from title url)) (name_from title url)
                      (logo_for (upper U (group_of cg))) (group_of cg)).
Proof.
  intro Hk. unfold entry_attrs. rewrite resolve_group_fresh.
  set (a1 := dict_setdefault (A "group-title") (group_of cg) attrs).
  assert (N1 : resolve_name a1 title url = name_from title url).
  { unfold resolve_name, a1. rewrite dict_get_setdefault. key_eqb.
    now rewrite fresh_name. }
  rewrite N1.
  set (a2 := dict_setdefault (A "tvg-name") (name_from title url) a1).
  assert (N2 : dict_get (A "tvg-name") a2 = Some (name_from title url)).
  { unfold a2, a1. rewrite !dict_get_setdefault. key_eqb. now rewrite fresh_name. }
  rewrite N2.
  set (a3 := dict_setdefault (A "tvg-id") (sanitize_id (name_from title url)) a2).
  assert (N3 : truthy (dict_get (A "tvg-logo") a3) = false).
  { unfold a3, a2, a1. rewrite !dict_get_setdefault. key_eqb. now rewrite fresh_logo. }
  rewrite N3. unfold a3, a2, a1, canon.
  simpl in Hk. destruct Hk as [<-|[<-|[<-|[<-|[]]]]];
    rewrite dict_get_set, !dict_get_setdefault; key_eqb;
    rewrite ?fresh_id, ?fresh_name, ?fresh_logo, ?fresh_group; reflexivity.
Qed.

Lemma entry_attrs_line (title : str) (url cg : option str) :
  build_extinf (entry_attrs U attrs title url cg)
               (name_of (entry_attrs U attrs title url cg))
  = entry_line U title url cg.
Proof.
  unfold entry_line, name_of.
  rewrite (entry_attrs_get title url cg (A "tvg-name")) by (vm_compute; tauto).
  change (dict_get (A "tvg-name") (canon ?i ?n ?l ?g)) with (Some n). cbv beta iota.
  apply build_extinf_ext. intros k Hk. now apply entry_attrs_get.
Qed.
End Filling.

(** ** The loop of [main], one iteration at a time *)

Section Loop.
Variable U : unicode_db.

(** What one iteration appends and where the next one starts. *)
Lemma entry_loop_step (fuel : nat) (cg : option str) (line : str) (tl : list str) :
  entry_loop U (S fuel) cg (line :: tl) =
  if is_header U line then A "#EXTM3U" :: entry_loop U fuel cg tl
  else if is_extinf U line then
    match detect_section_from_extinf U line with
    | Some (c :: sec') =>
        section_line (snd (parse_extinf_attrs U line)) (c :: sec') ::
          match tl with
          | next :: tl' =>
              if negb (is_extinf U next)
              then next :: entry_loop U fuel (Some (c :: sec')) tl'
              else entry_loop U fuel (Some (c :: sec')) tl
          | [] => entry_loop U fuel (Some (c :: sec')) tl
          end
    | _ =>
        entry_line U (snd (parse_extinf_attrs U line))
                   (hd_error (dropwhile is_hash tl)) cg ::
          match dropwhile is_hash tl with
          | (c :: u) :: after' => (c :: u) :: entry_loop U fuel cg after'
          | _ => entry_loop U fuel cg (dropwhile is_hash tl)
          end
    end
  else line :: entry_loop U fuel cg tl.
Proof.
  cbn [entry_loop]. destruct (is_header U line); [reflexivity|].
  destruct (is_extinf U line); [|reflexivity].
  pose proof (parse_attrs_extinf_keys U line) as Hf.
  destruct (parse_extinf_attrs U line) as [attrs title]. cbn [fst snd] in *.
  destruct (detect_section_from_extinf U line) as [[|c sec']|].
  - now rewrite (entry_attrs_line U attrs Hf).
  - now rewrite (section_attrs_line attrs Hf).
  - now rewrite (entry_attrs_line U attrs Hf).
Qed.

(** Fuel beyond the number of remaining lines changes nothing. *)
Lemma entry_loop_fuel : forall f1 f2 cg rest,
  List.length rest <= f1 -> List.length rest <= f2 ->
  entry_loop U f1 cg rest = entry_loop U f2 cg rest.
Proof.
  induction f1 as [|f1 IH]; intros f2 cg rest H1 H2.
  - destruct rest; [|simpl in H1; lia]. now destruct f2.
  - destruct rest as [|line tl]; [now destruct f2|].
    destruct f2 as [|f2]; [simpl in H2; lia|]. simpl in H1, H2.
    rewrite !entry_loop_step.
    pose proof (dropwhile_length is_hash tl) as Hd.
    destruct (is_header U line); [f_equal; apply IH; lia|].
    destruct (is_extinf U line); [|f_equal; apply IH; lia].
    destruct (detect_section_from_extinf U line) as [[|c sec']|].
    + f_equal. destruct (dropwhile is_hash tl) as [|[|d u] after'];
        simpl in Hd; try (f_equal; apply IH; simpl; lia); apply IH; simpl; lia.
    + f_equal. destruct tl as [|next tl']; [apply IH; simpl; lia|].
      simpl in H1, H2. destruct (negb (is_extinf U next));
        [f_equal; apply IH; lia | apply IH; simpl; lia].
    + f_equal. destruct (dropwhile is_hash tl) as [|[|d u] after'];
        simpl in Hd; try (f_equal; apply IH; simpl; lia); apply IH; simpl; lia.
Qed.

Lemma run_nil (cg : option str) : run U cg [] = [].
Proof. reflexivity. Qed.

Lemma run_step (cg : option str) (line : str) (tl : list str) :
  run U cg (line :: tl) =
  if is_header U line then A "#EXTM3U" :: run U cg tl
  else if is_extinf U line then
    match detect_section_from_extinf U line with
    | Some (c :: sec') =>
        section_line (snd (parse_extinf_attrs U line)) (c :: sec') ::
          match tl with
          | next :: tl' =>
              if negb (is_extinf U next)
              then next :: run U (Some (c :: sec')) tl'
              else run U (Some (c :: sec')) tl
          | [] => []
          end
    | _ =>
        entry_line U (snd (parse_extinf_attrs U line))
                   (hd_error (dropwhile is_hash tl)) cg ::
          match dropwhile is_hash tl with
          | (c :: u) :: after' => (c :: u) :: run U cg after'
          | _ => run U cg (dropwhile is_hash tl)
          end
    end
  else line :: run U cg tl.
Proof.
  unfold run. cbn [List.length]. rewrite entry_loop_step.
  pose proof (dropwhile_length is_hash tl) as Hd.
  destruct (is_header U line); [reflexivity|].
  destruct (is_extinf U line); [|reflexivity].
  destruct (detect_section_from_extinf U line) as [[|c sec']|].
  - f_equal. destruct (dropwhile is_hash tl) as [|[|d u] after']; simpl in Hd;
      first [ apply entry_loop_fuel; simpl; lia
            | f_equal; apply entry_loop_fuel; simpl; lia ].
  - f_equal. destruct tl as [|next tl']; [reflexivity|].
    destruct (negb (is_extinf U next)); [f_equal|]; apply entry_loop_fuel; simpl; lia.
  - f_equal. destruct (dropwhile is_hash tl) as [|[|d u] after']; simpl in Hd;
      first [ apply entry_loop_fuel; simpl; lia
            | f_equal; apply entry_loop_fuel; simpl; lia ].
Qed.

Lemma normalization_pass_run (raw : list str) :
  normalization_pass U raw = run U None (normalize_lines raw).
Proof. reflexivity. Qed.
End Loop.

(** ** The header line *)

(** The amended C7. When a line starts with the header token (letter case
    ignored), one iteration appends the literal line [#EXTM3U], whatever
    followed the token on the input line, and goes on with the next line. *)
Theorem header_line_canonical (U : unicode_db) (fuel : nat) (cg : option str)
        (line : str) (tl : list str) :
  is_header U line = true ->
  entry_loop U (S fuel) cg (line :: tl) = A "#EXTM3U" :: entry_loop U fuel cg tl.
Proof. intro H. rewrite entry_loop_step. now rewrite H. Qed.

Lemma header_line_canonical_witness :
  is_header ascii_db (Q "#extm3u x-tvg-url='http://epg'") = true
  /\ entry_loop ascii_db 2 None [Q "#extm3u x-tvg-url='http://epg'"; A "stray"]
     = A "#EXTM3U" :: entry_loop ascii_db 1 None [A "stray"].
Proof.
  split; [reflexivity|].
  apply (header_line_canonical ascii_db 1 None (Q "#extm3u x-tvg-url='http://epg'")
                               [A "stray"]).
  reflexivity.
Defined.

(** C7 as stated fails: a header line that carries more than the token is
    not copied, whatever the character tables. *)
Lemma header_line_not_copied :
  ~ exists U, header_copied U 0 None (Q "#EXTM3U x-tvg-url='http://epg'") [].
Proof.
  intros [U H]. unfold header_copied in H. specialize (H eq_refl).
  vm_compute in H. discriminate H.
Qed.

(** ** Metadata lines of the output *)






Section Markers.
Variable U : unicode_db.

Lemma upper_marker (t : str) : upper U (A "#EXTINF" ++ t) = A "#EXTINF" ++ upper U t.
Proof. reflexivity. Qed.

Lemma is_metadata_is_extinf (l : str) : is_metadata l = true -> is_extinf U l = true.
Proof.
  unfold is_metadata, is_extinf. intro H. apply startswith_prefix in H as [t ->].
  rewrite upper_marker. apply startswith_app.
Qed.

Lemma is_metadata_is_hash (l : str) : is_metadata l = true -> is_hash l = true.
Proof.
  unfold is_metadata, is_hash. intro H. apply startswith_prefix in H as [t ->]. reflexivity.
Qed.

Lemma not_extinf_not_metadata (l : str) : is_extinf U l = false -> is_metadata l = false.
Proof.
  intro H. destruct (is_metadata l) eqn:E; [|reflexivity].
  apply is_metadata_is_extinf in E. congruence.
Qed.

Lemma not_hash_not_metadata (l : str) : is_hash l = false -> is_metadata l = false.
Proof.
  intro H. destruct (is_metadata l) eqn:E; [|reflexivity].
  apply is_metadata_is_hash in E. congruence.
Qed.

End Markers.






(** ** Attributes already present on the input line *)

(** C3 at a failing input: the group-title of the input line is stored
    under the key [title] by the parser and the entry is emitted in the
    group DEFAULT. *)
Theorem existing_group_title_ignored (U : unicode_db) :
  fst (parse_extinf_attrs U (Q "#EXTINF:-1 group-title='Spor',TRT Spor"))
  = [(A "title", A "Spor")]
  /\ normalization_pass U [Q "#EXTINF:-1 group-title='Spor',TRT Spor"; A "http://x/1"]
     = [Q "#EXTINF:-1 tvg-id='TRT.Spor' tvg-name='TRT Spor' tvg-logo='https://i.hizliresim.com/i21k4te.png' group-title='DEFAULT',TRT Spor";
        A "http://x/1"].
Proof. split; vm_compute; reflexivity. Qed.

(** C9 at a failing input: the tvg-name and tvg-id of the input line are
    stored under the keys [name] and [id] and replaced by the title and its
    sanitized form. *)
Theorem existing_name_and_id_ignored (U : unicode_db) :
  fst (parse_extinf_attrs U (Q "#EXTINF:-1 tvg-id='trt1.tr' tvg-name='TRT 1 HD',TRT 1"))
  = [(A "id", A "trt1.tr"); (A "name", A "TRT 1 HD")]
  /\ normalization_pass U [Q "#EXTINF:-1 tvg-id='trt1.tr' tvg-name='TRT 1 HD',TRT 1";
                           A "http://x/1"]
     = [Q "#EXTINF:-1 tvg-id='TRT.1' tvg-name='TRT 1' tvg-logo='https://i.hizliresim.com/i21k4te.png' group-title='DEFAULT',TRT 1";
        A "http://x/1"].
Proof. split; vm_compute; reflexivity. Qed.

(** ** Reading back a line written by build_extinf *)

Lemma has_app (c : N) (a b : str) : has c (a ++ b) = has c a || has c b.
Proof. apply existsb_app. Qed.

Lemma has_false (c : N) (s : str) : has c s = false <-> ~ In c s.
Proof.
  unfold has. split.
  - intros H Hin. assert (E : existsb (N.eqb c) s = true).
    { apply existsb_exists. exists c. split; [exact Hin | apply N.eqb_refl]. }
    congruence.
  - intro H. destruct (existsb (N.eqb c) s) eqn:E; [|reflexivity].
    apply existsb_exists in E as [x [Hx Ex]]. apply N.eqb_eq in Ex. now subst.
Qed.

Lemma has_false_forall (c : N) (s : str) :
  has c s = false -> Forall (fun x => negb (x =? c)%N = true) s.
Proof.
  intro H. apply Forall_forall. intros x Hx. apply negb_true_iff, N.eqb_neq.
  intros ->. now apply has_false in H.
Qed.

Lemma forall_has_false (c : N) (s : str) :
  Forall (fun x => negb (x =? c)%N = true) s -> has c s = false.
Proof.
  intro F. apply has_false. intro Hin. rewrite Forall_forall in F.
  specialize (F c Hin). now rewrite N.eqb_refl in F.
Qed.

(** The text before the first occurrence of a character is determined. *)
Lemma split_at_first (c : N) : forall P m a b : str,
  has c P = false -> has c m = false -> P ++ c :: a = m ++ c :: b -> P = m /\ a = b.
Proof.
  induction P as [|x P IH]; intros [|y m] a b HP Hm E; simpl in *.
  - now inversion E.
  - inversion E; subst. now rewrite N.eqb_refl in Hm.
  - inversion E; subst. now rewrite N.eqb_refl in HP.
  - inversion E; subst. apply orb_false_iff in HP as [_ HP], Hm as [_ Hm].
    destruct (IH m a b HP Hm H1) as [-> ->]. now split.
Qed.

Section ReadBack.
Variable U : unicode_db.

(** What a match of [EXTINF_RE] says about the line. *)
Lemma extinf_re_inv (s : str) e s' cs :
  mrel (EXTINF_RE U) 0 s [] e s' cs ->
  exists P t s4,
    ci_prefix U (A "#EXTINF") s = true
    /\ skipn 7 s = P ++ 44%N :: t ++ s4
    /\ Forall (fun c => notcomma c = true) P
    /\ Forall (fun c => dot c = true) t
    /\ (s4 = [] \/ s4 = [10%N])
    /\ group 2 cs = t.
Proof.
  unfold EXTINF_RE. intro H.
  apply mrel_seq_inv in H as [p0 [s0 [c0 [Hb H]]]].
  apply mrel_bol_inv in Hb as [_ [-> [-> ->]]].
  apply mrel_seq_inv in H as [p1 [s1 [c1 [Hg H]]]].
  apply mrel_grp_inv in Hg as [c1' [Hg ->]].
  apply mrel_seq_inv in Hg as [p2 [s2 [c2 [Hl Hg]]]].
  apply mrel_lits_i in Hl as [Hpre [-> [-> ->]]].
  apply mrel_seq_inv in Hg as [p3 [s3 [c3 [Hs Hc]]]].
  apply mrel_star_inv in Hs as [Hs ->].
  apply star_run_text in Hs as [P [EP [-> FP]]].
  apply mrel_chr_inv in Hc as [x [-> [Hx [-> ->]]]].
  change (ci_char U 44%N x) with (44 =? x)%N in Hx. apply N.eqb_eq in Hx. subst x.
  apply mrel_seq_inv in H as [p4 [s4 [c4 [Ht He]]]].
  apply mrel_grp_inv in Ht as [c4' [Ht ->]].
  apply mrel_star_inv in Ht as [Ht ->].
  apply star_run_text in Ht as [t [-> [-> Ft]]].
  apply mrel_eol_inv in He as [-> [-> [-> Hend]]].
  exists P, t, s4. repeat split; trivial.
  cbn [group Nat.eqb].
  match goal with |- firstn ?n _ = _ => replace n with (List.length t) by lia end.
  now rewrite firstn_app, firstn_all, Nat.sub_diag, app_nil_r.
Qed.

(** A line of that shape is matched. *)
Lemma extinf_re_intro (s P t : str) :
  ci_prefix U (A "#EXTINF") s = true ->
  skipn 7 s = P ++ 44%N :: t ->
  Forall (fun c => notcomma c = true) P ->
  Forall (fun c => dot c = true) t ->
  exists e s' cs, mrel (EXTINF_RE U) 0 s [] e s' cs.
Proof.
  intros Hpre Es FP Ft.
  assert (H1 : mrel (lits_i U (A "#EXTINF")) 0 s [] 7 (P ++ 44%N :: t) []).
  { apply mrel_lits_i. repeat split; [exact Hpre | now rewrite <- Es]. }
  assert (H2 : mrel (Star true (fun c => negb (c =? 44)%N)) 7 (P ++ 44%N :: t) []
                    (7 + List.length P) (44%N :: t) []).
  { constructor. apply star_run_app. exact FP. }
  assert (H3 : mrel (lit_i U 44%N) (7 + List.length P) (44%N :: t) []
                    (S (7 + List.length P)) t []).
  { constructor. reflexivity. }
  assert (H4 : forall cs, mrel (Star true dot) (S (7 + List.length P)) t cs
                               (S (7 + List.length P) + List.length t) [] cs).
  { intro cs. constructor. rewrite <- (app_nil_r t) at 1. apply star_run_app. exact Ft. }
  unfold EXTINF_RE. do 3 eexists.
  econstructor; [constructor|].
  econstructor.
  - constructor. econstructor; [exact H1|]. econstructor; [exact H2 | exact H3].
  - econstructor; [constructor; apply H4 | constructor].
Qed.
End ReadBack.

Lemma strip_incl (s : str) (c : N) : In c (strip s) -> In c s.
Proof.
  unfold strip, lstrip_by, rstrip_by. intro H. apply (dropwhile_incl isspace).
  destruct (dropwhile_end_split isspace (dropwhile isspace s)) as [w [E _]].
  rewrite E. apply in_or_app. now left.
Qed.

Lemma has_strip (c : N) (s : str) : has c s = false -> has c (strip s) = false.
Proof. rewrite !has_false. intros H Hin. apply H. now apply strip_incl. Qed.

Lemma has_join (c : N) (sep : str) (parts : list str) :
  has c sep = false -> Forall (fun p => has c p = false) parts ->
  has c (join sep parts) = false.
Proof.
  intros Hs F. induction F as [|p parts Hp F IH]; [reflexivity|].
  destruct parts as [|q parts]; [exact Hp|].
  change (join sep (p :: q :: parts)) with (p ++ sep ++ join sep (q :: parts)).
  now rewrite !has_app, Hp, Hs, IH.
Qed.

Section Titles.
Variable U : unicode_db.

Lemma re_match_some (r : re) (s : str) (cs : caps) :
  re_match r s = Some cs -> exists e s', mrel r 0 s [] e s' cs.
Proof.
  unfold re_match. destruct (match_here r 0 s) as [[[e s'] cs']|] eqn:E; [|discriminate].
  intro H. inversion H; subst. exists e, s'. now apply match_here_sound.
Qed.

Lemma re_match_complete (r : re) (s : str) e s' cs :
  mrel r 0 s [] e s' cs -> exists cs', re_match r s = Some cs'.
Proof.
  intro H. apply match_here_complete in H. unfold re_match.
  destruct (match_here r 0 s) as [[[e1 s1] cs1]|]; [now exists cs1 | contradiction].
Qed.

(** A title never holds a line feed and is stripped. *)
Lemma parse_title_no_lf (line : str) : has LF (snd (parse_extinf_attrs U line)) = false.
Proof.
  unfold parse_extinf_attrs. cbn [snd].
  destruct (re_match (EXTINF_RE U) line) as [cs|] eqn:E; [|reflexivity].
  apply re_match_some in E as [e [s' Hm]].
  apply extinf_re_inv in Hm as [P [t [s4 [_ [_ [_ [Ft [_ ->]]]]]]]].
  apply has_strip. now apply forall_has_false.
Qed.

Lemma parse_title_stripped (line : str) :
  strip (snd (parse_extinf_attrs U line)) = snd (parse_extinf_attrs U line).
Proof.
  unfold parse_extinf_attrs. cbn [snd].
  destruct (re_match (EXTINF_RE U) line); [apply strip_idem | reflexivity].
Qed.


End Titles.

(** ** The shape of a written line *)

Lemma extinf_parts_no_comma (attrs : dict) : forall keys,
  Forall (fun k => has 44%N k = false) keys ->
  (forall k v, In k keys -> dict_get k attrs = Some v -> has 44%N v = false) ->
  Forall (fun p => has 44%N p = false) (extinf_parts keys attrs).
Proof.
  induction keys as [|k keys IH]; intros Fk Hv; simpl; [constructor|].
  inversion Fk as [|? ? Hk Fk']; subst.
  assert (IH' : Forall (fun p => has 44%N p = false) (extinf_parts keys attrs)).
  { apply IH; [exact Fk'|]. intros k' v Hin. apply Hv. now right. }
  destruct (dict_get k attrs) as [[|c v]|] eqn:E; trivial.
  constructor; [|exact IH']. unfold fmt_pair. rewrite !has_app, Hk.
  rewrite (Hv k (c :: v) (or_introl eq_refl) E). reflexivity.
Qed.

(** A written line is the marker, a part without commas, a comma and the
    title, provided the four values hold no comma. *)
Lemma build_extinf_shape (attrs : dict) (title : str) :
  (forall k v, In k EXTINF_KEYS -> dict_get k attrs = Some v -> has 44%N v = false) ->
  exists P, build_extinf attrs title = A "#EXTINF" ++ P ++ 44%N :: title
            /\ has 44%N P = false.
Proof.
  intro Hv. exists (A ":-1 " ++ join (A " ") (extinf_parts EXTINF_KEYS attrs)). split.
  - unfold build_extinf. cbv zeta.
    change (A "#EXTINF:-1 ") with (A "#EXTINF" ++ A ":-1 ").
    rewrite <- !app_assoc. reflexivity.
  - rewrite has_app. change (has 44%N (A ":-1 ")) with false. cbn [orb].
    apply has_join; [reflexivity|]. apply extinf_parts_no_comma; [|exact Hv].
    repeat constructor.
Qed.

(** ** Values without commas *)





Lemma first_section_empty (U : unicode_db) : first_section (SECTION_KEYWORDS U) [] = None.
Proof. reflexivity. Qed.

(** ** A second reading of a written line *)

Section Written.
Variable U : unicode_db.
Variables id name logo group : str.
Hypothesis id_ok : has 44%N id = false.
Hypothesis name_ok : has 44%N name = false.
Hypothesis logo_ok : has 44%N logo = false.
Hypothesis group_ok : has 44%N group = false.
Hypothesis name_lf : has LF name = false.
Hypothesis name_stripped : strip name = name.

Lemma written_metadata : is_metadata (build_extinf (canon id name logo group) name) = true.
Proof. reflexivity. Qed.




End Written.

Section SecondPass.
Variable U : unicode_db.








End SecondPass.

(** ** A second run of the loop *)

Section Idempotence.
Variable U : unicode_db.

Lemma dropwhile_Forall {X} (P : X -> Prop) (p : X -> bool) (l : list X) :
  Forall P l -> Forall P (dropwhile p l).
Proof.
  intro F. destruct (dropwhile_split p l) as [w [E _]]. rewrite E in F.
  now apply Forall_app in F as [_ F].
Qed.

End Idempotence.

(** ** Line normalization of an output *)

Lemma tidy_cons (a : str) (l : list str) :
  (a = [] -> exists b r, l = b :: r /\ b <> []) -> tidy l -> tidy (a :: l).
Proof.
  intros H T. split; [|exact T]. intro E. destruct (H E) as [b [r [-> Hb]]]. exact Hb.
Qed.

Lemma tidy_inv (a : str) (l : list str) :
  tidy (a :: l) -> (a = [] -> exists b r, l = b :: r /\ b <> []) /\ tidy l.
Proof.
  intros [H T]. split; [|exact T]. intro E. specialize (H E).
  destruct l as [|b r]; [destruct H | now exists b, r].
Qed.

Lemma tidy_app_r (w l : list str) : tidy (w ++ l) -> tidy l.
Proof. induction w as [|a w IH]; [trivial | intros [_ T]; now apply IH]. Qed.

Lemma tidy_of (l : list str) :
  no_blank_pair l -> (forall a, l <> a ++ [[]]) -> tidy l.
Proof.
  induction l as [|a l IH]; intros Hn Ht; [exact I|].
  destruct Hn as [Hab Hn]. apply tidy_cons.
  - intros ->. destruct l as [|b r]; [now destruct (Ht [])|].
    exists b, r. split; [reflexivity | now apply Hab].
  - apply IH; [exact Hn|]. intros x E. apply (Ht (a :: x)). now rewrite E.
Qed.

Lemma tidy_last (l r : list str) (c : str) : tidy l -> l = r ++ [c] -> c <> [].
Proof.
  intros T ->. apply tidy_app_r in T. destruct T as [H _]. intro E. now apply H.
Qed.

Lemma squeeze_fix : forall (l : list str) (pb : bool),
  Forall (fun s => strip s = s) l -> tidy l ->
  (pb = true -> forall r, l <> [] :: r) ->
  squeeze pb l = l.
Proof.
  induction l as [|a l IH]; intros pb F T Hpb; [reflexivity|].
  inversion F as [|? ? Ha F']; subst. apply tidy_inv in T as [Hb T].
  cbn [squeeze]. rewrite Ha. destruct a as [|c a].
  - destruct pb; [now destruct (Hpb eq_refl l)|].
    f_equal. apply IH; trivial. intros _ r E. destruct (Hb eq_refl) as [b [r' [E' Hne]]].
    rewrite E in E'. inversion E'; subst. now apply Hne.
  - f_equal. apply IH; trivial. discriminate.
Qed.

Lemma normalize_lines_fix (l : list str) :
  Forall (fun s => strip s = s) l -> tidy l -> normalize_lines l = l.
Proof.
  intros F T. rewrite normalize_lines_squeeze, squeeze_fix; trivial; [|discriminate].
  destruct (list_last_cases l) as [->|[r [c ->]]]; [reflexivity|].
  apply dropwhile_end_fix. pose proof (tidy_last _ r c T eq_refl) as Hc.
  unfold is_blank. now apply str_eqb_neq.
Qed.

Lemma normalize_lines_stripped (raw : list str) :
  Forall (fun s => strip s = s) (normalize_lines raw).
Proof.
  rewrite normalize_lines_squeeze.
  destruct (dropwhile_end_split is_blank (squeeze false raw)) as [w [E _]].
  pose proof (squeeze_stripped false raw) as F. rewrite E in F.
  now apply Forall_app in F as [F _].
Qed.

Lemma normalize_lines_tidy (raw : list str) : tidy (normalize_lines raw).
Proof.
  rewrite normalize_lines_squeeze. apply tidy_of.
  - destruct (dropwhile_end_split is_blank (squeeze false raw)) as [w [E _]].
    apply (no_blank_pair_app_l _ w). rewrite <- E. apply squeeze_no_blank_pair.
  - intro a. apply dropwhile_end_blank_no_trailing.
Qed.

Lemma build_extinf_cons (attrs : dict) (title : str) :
  exists r, build_extinf attrs title = 35%N :: r.
Proof. unfold build_extinf. eexists. reflexivity. Qed.

Lemma build_extinf_stripped (attrs : dict) (name : str) :
  strip name = name -> strip (build_extinf attrs name) = build_extinf attrs name.
Proof.
  intro Hs. apply strip_ends.
  - intros c r E. destruct (build_extinf_cons attrs name) as [r' E'].
    rewrite E' in E. now inversion E.
  - intros r c E. unfold build_extinf in E. cbv zeta in E.
    destruct (list_last_cases name) as [->|[n' [d ->]]].
    + rewrite app_assoc in E. apply app_inj_tail in E as [_ <-]. reflexivity.
    + change (A ",") with [44%N] in E. rewrite !app_assoc in E.
      apply app_inj_tail in E as [_ <-]. now apply strip_last in Hs.
Qed.

Section OutputShape.
Variable U : unicode_db.

Lemma name_from_stripped (title : str) (url : option str) :
  strip title = title -> (forall u, url = Some u -> strip u = u) ->
  strip (name_from title url) = name_from title url.
Proof.
  intros Ht Hu. destruct title as [|c t]; [|exact Ht].
  destruct url as [[|c u]|]; cbn [name_from]; trivial. now apply Hu.
Qed.

Lemma run_stripped : forall n cg ls,
  List.length ls <= n ->
  Forall (fun s => strip s = s) ls -> Forall (fun s => strip s = s) (run U cg ls).
Proof.
  induction n as [|n IH]; intros cg ls Hn F.
  - destruct ls; [constructor | simpl in Hn; lia].
  - destruct ls as [|line tl]; [constructor|]. simpl in Hn.
    inversion F as [|? ? Hl F']; subst. rewrite run_step.
    destruct (is_header U line); [constructor; [reflexivity | apply IH; trivial; lia]|].
    destruct (is_extinf U line); [|constructor; [exact Hl | apply IH; trivial; lia]].
    pose proof (parse_title_stripped U line) as Ht.
    pose proof (dropwhile_length is_hash tl) as Hd.
    pose proof (dropwhile_Forall _ is_hash tl F') as Fa.
    assert (Ord : Forall (fun s => strip s = s)
      (entry_line U (snd (parse_extinf_attrs U line))
                  (hd_error (dropwhile is_hash tl)) cg ::
       match dropwhile is_hash tl with
       | (c :: u) :: after' => (c :: u) :: run U cg after'
       | _ => run U cg (dropwhile is_hash tl)
       end)).
    { constructor.
      - apply build_extinf_stripped, name_from_stripped; [exact Ht|].
        intros u Eu. destruct (dropwhile is_hash tl) as [|x after']; [discriminate|].
        inversion Eu; subst. now inversion Fa.
      - destruct (dropwhile is_hash tl) as [|[|d u] after'] eqn:Ea; simpl in Hd.
        + constructor.
        + apply IH; trivial. simpl. lia.
        + inversion Fa; subst. constructor; [assumption | apply IH; trivial; lia]. }
    destruct (detect_section_from_extinf U line) as [[|c sec']|]; try exact Ord.
    constructor; [now apply build_extinf_stripped|].
    destruct tl as [|next tl']; [constructor|]. simpl in Hn. inversion F'; subst.
    destruct (negb (is_extinf U next)).
    + constructor; [assumption | apply IH; trivial; lia].
    + apply IH; trivial. simpl. lia.
Qed.

Lemma build_extinf_nonblank (attrs : dict) (title : str) : build_extinf attrs title <> [].
Proof. destruct (build_extinf_cons attrs title) as [r ->]. discriminate. Qed.

(** The first line written for a line that is not blank is not blank. *)
Lemma run_head_nonblank (cg : option str) (line : str) (tl : list str) :
  line <> [] -> exists b r, run U cg (line :: tl) = b :: r /\ b <> [].
Proof.
  intro Hne. rewrite run_step.
  destruct (is_header U line); [eexists _, _; split; [reflexivity | discriminate]|].
  destruct (is_extinf U line); [|eexists _, _; split; [reflexivity | exact Hne]].
  destruct (detect_section_from_extinf U line) as [[|c sec']|];
    eexists _, _; (split; [reflexivity | apply build_extinf_nonblank]).
Qed.

Lemma tidy_run_cons (cg : option str) (a : str) (tl : list str) :
  tidy (a :: tl) -> tidy (run U cg tl) -> tidy (a :: run U cg tl).
Proof.
  intros T Tr. apply tidy_inv in T as [Ha _]. apply tidy_cons; [|exact Tr].
  intro E. destruct (Ha E) as [b [r [-> Hb]]]. now apply run_head_nonblank.
Qed.

Lemma run_tidy : forall n cg ls, List.length ls <= n -> tidy ls -> tidy (run U cg ls).
Proof.
  induction n as [|n IH]; intros cg ls Hn T.
  - destruct ls; [exact I | simpl in Hn; lia].
  - destruct ls as [|line tl]; [exact I|]. simpl in Hn.
    pose proof (proj2 (tidy_inv _ _ T)) as Ttl. rewrite run_step.
    destruct (is_header U line).
    { apply tidy_cons; [discriminate | apply IH; trivial; lia]. }
    destruct (is_extinf U line).
    2:{ apply tidy_run_cons; [exact T | apply IH; trivial; lia]. }
    pose proof (dropwhile_length is_hash tl) as Hd.
    assert (Ta : tidy (dropwhile is_hash tl)).
    { destruct (dropwhile_split is_hash tl) as [w [E _]]. rewrite E in Ttl.
      now apply tidy_app_r in Ttl. }
    assert (Ord : forall b, b <> [] ->
      tidy (b :: match dropwhile is_hash tl with
                 | (c :: u) :: after' => (c :: u) :: run U cg after'
                 | _ => run U cg (dropwhile is_hash tl)
                 end)).
    { intros b Hb. apply tidy_cons; [congruence|].
      destruct (dropwhile is_hash tl) as [|[|d u] after'] eqn:Ea; simpl in Hd.
      - exact I.
      - apply IH; trivial. simpl. lia.
      - apply tidy_cons; [discriminate|]. apply IH; [lia|].
        now apply tidy_inv in Ta as [_ Ta]. }
    destruct (detect_section_from_extinf U line) as [[|c sec']|];
      try (apply Ord, build_extinf_nonblank).
    apply tidy_cons; [intro E; now apply build_extinf_nonblank in E|].
    destruct tl as [|next tl']; [exact I|]. simpl in Hn.
    destruct (negb (is_extinf U next)).
    + apply tidy_run_cons; [exact Ttl|]. apply IH; [lia|].
      now apply tidy_inv in Ttl as [_ Ttl].
    + apply IH; trivial. simpl. lia.
Qed.
End OutputShape.




(** The two passes on that input. *)
Lemma url_title_becomes_section (U : unicode_db) :
  normalization_pass U [A "#EXTINF:-1,"; A "http://sinema.tv/1"]
  = [Q "#EXTINF:-1 tvg-id='httpsinema.tv1' tvg-name='http://sinema.tv/1' tvg-logo='https://i.hizliresim.com/i21k4te.png' group-title='DEFAULT',http://sinema.tv/1";
     A "http://sinema.tv/1"]
  /\ normalization_pass U
       (normalization_pass U [A "#EXTINF:-1,"; A "http://sinema.tv/1"])
     = [Q "#EXTINF:-1 tvg-id='httpsinema.tv1' tvg-name='http://sinema.tv/1' tvg-logo='https://i.hizliresim.com/i21k4te.png' group-title='S" ++ [304%N] ++ Q "NEMALAR',http://sinema.tv/1";
        A "http://sinema.tv/1"].
Proof. split; vm_compute; reflexivity. Qed.

(** A title with a comma is cut at its first comma by the second pass. *)
Lemma comma_title_not_stable (U : unicode_db) :
  normalization_pass U (normalization_pass U [A "#EXTINF:-1,A,B"])
  <> normalization_pass U [A "#EXTINF:-1,A,B"].
Proof. intro H. vm_compute in H. discriminate H. Qed.

(** ** The number of matches of ATTR_RE *)

Section AttrFuel.
Variable U : unicode_db.

(** A match of [ATTR_RE] reads at least one character. *)
Lemma attr_re_progress pos s e s' cs :
  mrel (ATTR_RE U) pos s [] e s' cs -> List.length s' < List.length s.
Proof.
  unfold ATTR_RE, Plus. intro H.
  apply mrel_seq_inv in H as [p1 [s1 [c1 [Hk H]]]].
  apply mrel_grp_inv in Hk as [c0 [Hk _]].
  apply mrel_seq_inv in Hk as [p0 [s0 [c00 [Hc Hs]]]].
  apply mrel_chr_inv in Hc as [c [-> _]].
  apply mrel_text in Hs as [m0 [-> _]]. apply mrel_text in H as [m1 [-> _]].
  simpl. rewrite !length_app. lia.
Qed.

Lemma search_attr_progress pos s e s' cs :
  search_from (ATTR_RE U) pos s = Some (e, s', cs) -> List.length s' < List.length s.
Proof.
  intro H. apply search_from_sound in H as [pre [suf [-> Hm]]].
  apply match_here_sound, attr_re_progress in Hm. rewrite length_app. lia.
Qed.

(** The fuel given by [re_findall] is never used up. *)
Lemma findall_attr_fuel : forall f1 f2 pos s,
  List.length s < f1 -> List.length s < f2 ->
  findall_from f1 (ATTR_RE U) pos s = findall_from f2 (ATTR_RE U) pos s.
Proof.
  induction f1 as [|f1 IH]; intros f2 pos s H1 H2; [lia|].
  destruct f2 as [|f2]; [lia|]. cbn [findall_from].
  destruct (search_from (ATTR_RE U) pos s) as [[[e s'] cs]|] eqn:E; [|reflexivity].
  apply search_attr_progress in E. f_equal. apply IH; lia.
Qed.
End AttrFuel.

(** ** Worked examples *)

Example sanitize_id_kanal :
  sanitize_id (A "Kanal  Ad" ++ [305%N] ++ A "!!") = A "Kanal.Ad".
Proof. reflexivity. Qed.

(** A section marker titled [Belgesel] followed by an entry without group
    and logo: the entry is emitted in the documentary group with the
    documentary logo. *)
Example documentary_section (U : unicode_db) :
  normalization_pass U
    [A "#EXTINF:-1,Belgesel"; A "http://d/0";
     A "#EXTINF:-1,Yaban Hayat"; A "http://d/1"]
  = [Q "#EXTINF:-1 tvg-id='Belgesel' tvg-name='Belgesel' tvg-logo='https://upload.wikimedia.org/wikipedia/commons/1/1b/Documentary_icon.png' group-title='BELGESEL',Belgesel";
     A "http://d/0";
     Q "#EXTINF:-1 tvg-id='Yaban.Hayat' tvg-name='Yaban Hayat' tvg-logo='https://upload.wikimedia.org/wikipedia/commons/1/1b/Documentary_icon.png' group-title='BELGESEL',Yaban Hayat";
     A "http://d/1"].
Proof. vm_compute. reflexivity. Qed.

(** * Further properties of the code *)

(** ** parse_extinf_attrs *)

Lemma dict_get_in (k v : str) (d : dict) : In (k, v) d -> dict_get k d <> None.
Proof.
  induction d as [|[k0 v0] d IH]; [intros []|]. simpl.
  intros [E|H].
  - inversion E; subst. now rewrite str_eqb_refl.
  - destruct (str_eqb k k0); [discriminate | now apply IH].
Qed.

(** X1. The attribute parser never returns a key that holds a character
    outside the word class: every key of the parsed mapping consists of
    word characters, so a key with a hyphen is never there; in particular
    tvg-id, tvg-name, tvg-logo and group-title are never read. *)
Theorem parse_keys_are_words (U : unicode_db) (line : str) :
  (forall k v, In (k, v) (fst (parse_extinf_attrs U line)) ->
     Forall (fun c => is_word U c = true) k)
  /\ (forall k, In 45%N k -> dict_get k (fst (parse_extinf_attrs U line)) = None)
  /\ dict_get (A "tvg-id") (fst (parse_extinf_attrs U line)) = None
  /\ dict_get (A "tvg-name") (fst (parse_extinf_attrs U line)) = None
  /\ dict_get (A "tvg-logo") (fst (parse_extinf_attrs U line)) = None
  /\ dict_get (A "group-title") (fst (parse_extinf_attrs U line)) = None.
Proof.
  repeat split; try (apply parse_attrs_extinf_keys; vm_compute; tauto).
  - intros k v Hin. apply dict_get_in in Hin. unfold parse_extinf_attrs in Hin.
    cbn [fst] in Hin. apply dict_of_pairs_keys in Hin.
    apply in_map_iff in Hin as [[k' v'] [Ek Hin]]. simpl in Ek. subst k'.
    now apply findall_attr_keys in Hin.
  - intros k Hk. now apply (parse_attrs_word_keys U line k 45%N).
Qed.

Lemma ci_prefix_app_r (U : unicode_db) (w : str) : forall s r,
  ci_prefix U w s = true -> ci_prefix U w (s ++ r) = true.
Proof.
  induction w as [|c w IH]; intros s r; simpl; [reflexivity|].
  destruct s as [|x s]; [discriminate|]. simpl.
  intro H. apply andb_true_iff in H as [Hx H]. now rewrite Hx, (IH s r H).
Qed.

Lemma skipn_marker (mk rest : str) : List.length mk = 7 -> skipn 7 (mk ++ rest) = rest.
Proof.
  intro H. rewrite skipn_app, H, Nat.sub_diag. rewrite <- H, skipn_all. reflexivity.
Qed.

Lemma title_first_comma (U : unicode_db) (mk P t : str) :
  ci_prefix U (A "#EXTINF") mk = true -> List.length mk = 7 ->
  has 44%N P = false -> has LF t = false ->
  snd (parse_extinf_attrs U (mk ++ P ++ 44%N :: t)) = strip t.
Proof.
  intros Hmk Hlen HP Hl. unfold parse_extinf_attrs. cbn [snd].
  set (line := mk ++ P ++ 44%N :: t).
  assert (Hsk : skipn 7 line = P ++ 44%N :: t) by (now apply skipn_marker).
  assert (Hex : exists e s' cs, mrel (EXTINF_RE U) 0 line [] e s' cs).
  { apply (extinf_re_intro U line P t); trivial.
    - now apply ci_prefix_app_r.
    - now apply has_false_forall.
    - now apply has_false_forall in Hl. }
  destruct Hex as [e [s' [cs Hm]]]. apply re_match_complete in Hm as [cs' E].
  rewrite E. apply re_match_some in E as [e' [s'' Hm]].
  apply extinf_re_inv in Hm as [P' [t' [s4 [_ [Es [FP [Ft [Hend ->]]]]]]]].
  rewrite Hsk in Es.
  apply split_at_first in Es as [_ En]; [|exact HP | now apply forall_has_false].
  destruct Hend as [->| ->].
  - rewrite app_nil_r in En. now subst t'.
  - subst t. rewrite has_app in Hl. apply orb_false_iff in Hl as [_ Hl]. discriminate Hl.
Qed.

(** X2. The title is the text after the first comma, stripped: on a line
    made of the marker (in any letter case), a part without comma, a comma
    and a rest without line feed, the parser returns the stripped rest, even
    when the rest holds further commas. *)
Theorem title_is_text_after_first_comma (U : unicode_db) (mk P t : str) :
  ci_prefix U (A "#EXTINF") mk = true -> List.length mk = 7 ->
  has 44%N P = false -> has LF t = false ->
  snd (parse_extinf_attrs U (mk ++ P ++ 44%N :: t)) = strip t.
Proof. apply title_first_comma. Qed.

Lemma title_is_text_after_first_comma_witness :
  snd (parse_extinf_attrs ascii_db (A "#extinf" ++ A ":-1 a=b" ++ 44%N :: A " x,y "))
  = A "x,y".
Proof.
  apply (title_is_text_after_first_comma ascii_db (A "#extinf") (A ":-1 a=b") (A " x,y "));
    reflexivity.
Defined.

Lemma has_skipn (c : N) (n : nat) (s : str) : has c (skipn n s) = true -> has c s = true.
Proof.
  intro H. rewrite <- (firstn_skipn n s), has_app, H. apply orb_true_r.
Qed.

(** X3. A line without comma, or that does not begin with the marker, has
    the empty title and is never taken for a section marker. *)
Theorem title_empty_without_marker_or_comma (U : unicode_db) (line : str) :
  has 44%N line = false \/ ci_prefix U (A "#EXTINF") line = false ->
  snd (parse_extinf_attrs U line) = []
  /\ detect_section_from_extinf U line = None.
Proof.
  intro H.
  assert (T : snd (parse_extinf_attrs U line) = []).
  { unfold parse_extinf_attrs. cbn [snd].
    destruct (re_match (EXTINF_RE U) line) as [cs|] eqn:E; [exfalso | reflexivity].
    apply re_match_some in E as [e [s' Hm]].
    apply extinf_re_inv in Hm as [P [t [s4 [Hpre [Es _]]]]].
    destruct H as [H|H]; [|congruence].
    assert (Hc : has 44%N (skipn 7 line) = true).
    { rewrite Es, has_app. simpl. apply orb_true_r. }
    apply has_skipn in Hc. congruence. }
  split; [exact T|]. rewrite detect_section_unfold, T. reflexivity.
Qed.

Lemma title_empty_without_marker_or_comma_witness :
  snd (parse_extinf_attrs ascii_db (A "#EXTINF:-1 tvg-id=x Sinema")) = []
  /\ detect_section_from_extinf ascii_db (A "#EXTINF:-1 tvg-id=x Sinema") = None.
Proof.
  apply (title_empty_without_marker_or_comma ascii_db). left. reflexivity.
Defined.

(** X4. A title never holds a line feed and has no white space at either
    end, whatever the line. *)
Theorem title_clean (U : unicode_db) (line : str) :
  has LF (snd (parse_extinf_attrs U line)) = false
  /\ strip (snd (parse_extinf_attrs U line)) = snd (parse_extinf_attrs U line)
  /\ (forall c r, snd (parse_extinf_attrs U line) = c :: r -> isspace c = false)
  /\ (forall r c, snd (parse_extinf_attrs U line) = r ++ [c] -> isspace c = false).
Proof.
  pose proof (parse_title_stripped U line) as Hs. repeat split.
  - apply parse_title_no_lf.
  - exact Hs.
  - intros c r E. rewrite E in Hs. now apply strip_head in Hs.
  - intros r c E. rewrite E in Hs. now apply strip_last in Hs.
Qed.

(** X5. Reading back a written line: when the four values hold no comma
    and the title no line feed, the parser returns the stripped title of a
    line written by build_extinf (the title may hold commas), and none of
    the four attributes. *)
Theorem build_then_parse (U : unicode_db) (attrs : dict) (title : str) :
  (forall k v, In k EXTINF_KEYS -> dict_get k attrs = Some v -> has 44%N v = false) ->
  has LF title = false ->
  snd (parse_extinf_attrs U (build_extinf attrs title)) = strip title
  /\ forall k, In k EXTINF_KEYS ->
       dict_get k (fst (parse_extinf_attrs U (build_extinf attrs title))) = None.
Proof.
  intros Hv Hl. split; [|intros k Hk; now apply parse_attrs_extinf_keys].
  destruct (build_extinf_shape attrs title Hv) as [P [E HP]]. rewrite E.
  now apply title_first_comma.
Qed.

Lemma build_then_parse_witness :
  snd (parse_extinf_attrs ascii_db
         (build_extinf (canon (A "AB") (A "A B") hizliresim DEFAULT) (A "A, B ")))
  = A "A, B"
  /\ forall k, In k EXTINF_KEYS ->
       dict_get k (fst (parse_extinf_attrs ascii_db
         (build_extinf (canon (A "AB") (A "A B") hizliresim DEFAULT) (A "A, B "))))
       = None.
Proof.
  apply (build_then_parse ascii_db (canon (A "AB") (A "A B") hizliresim DEFAULT)
                          (A "A, B ")); [|reflexivity].
  intros k v _. unfold canon. cbn [dict_get].
  repeat match goal with
    | |- context [if ?b then _ else _] =>
        destruct b; [intro H; inversion H; subst; reflexivity|]
    end.
  discriminate.
Defined.

(** ** sanitize_id again *)

Lemma id_char_not_space (c : N) : id_char c = true -> isspace c = false.
Proof.
  unfold id_char, isspace, is_upper_az, is_lower_az, is_digit. intro H.
  repeat match goal with
    | |- context [(?a =? ?b)%N] => destruct (N.eqb_spec a b); [subst; discriminate H|]
    end.
  ncases; simpl in *; try reflexivity; try discriminate; exfalso;
    repeat match goal with
      | H' : context [(?a =? ?b)%N] |- _ => destruct (N.eqb_spec a b); simpl in H'
      end; try discriminate; lia.
Qed.

Lemma dots_for_space_none (s : str) :
  Forall (fun c => isspace c = false) s -> dots_for_space false s = s.
Proof. induction 1 as [|c s Hc _ IH]; simpl; [reflexivity | now rewrite Hc, IH]. Qed.

Lemma filter_all (p : N -> bool) (s : str) :
  Forall (fun c => p c = true) s -> filter p s = s.
Proof. induction 1 as [|c s Hc _ IH]; simpl; [reflexivity | now rewrite Hc, IH]. Qed.

Lemma strip_no_space (s : str) : Forall (fun c => isspace c = false) s -> strip s = s.
Proof.
  intro F. rewrite Forall_forall in F. apply strip_ends.
  - intros c r ->. apply F. now left.
  - intros r c ->. apply F. apply in_or_app. right. now left.
Qed.

Lemma sanitize_id_fixed (s : str) :
  s <> [] -> Forall (fun c => id_char c = true) s -> sanitize_id s = s.
Proof.
  intros Hne F. rewrite sanitize_id_rule. unfold sanitize_rule.
  assert (Fs : Forall (fun c => isspace c = false) s).
  { eapply Forall_impl; [|exact F]. apply id_char_not_space. }
  rewrite (strip_no_space s Fs), (dots_for_space_none s Fs), (filter_all id_char s F).
  destruct s; [contradiction | reflexivity].
Qed.

(** X6. [sanitize_id] is idempotent, and the strings it leaves alone are
    exactly the non-empty strings of letters, digits, '.', '_' and '-'. *)
Theorem sanitize_id_idempotent (name : str) :
  sanitize_id (sanitize_id name) = sanitize_id name
  /\ (sanitize_id name = name <->
      name <> [] /\ Forall (fun c => id_char c = true) name).
Proof.
  split.
  - apply sanitize_id_fixed; [apply sanitize_id_nonempty | apply sanitize_id_chars].
  - split.
    + intro E. rewrite <- E. split; [apply sanitize_id_nonempty | apply sanitize_id_chars].
    + intros [Hne F]. now apply sanitize_id_fixed.
Qed.

(** ** normalize_lines again *)

(** X7. [normalize_lines] is idempotent, and the sequences it leaves alone
    are exactly those whose lines are stripped and in which every blank
    line is followed by a line that is not blank. *)
Theorem normalize_lines_idempotent (lines : list str) :
  normalize_lines (normalize_lines lines) = normalize_lines lines
  /\ (normalize_lines lines = lines <->
      Forall (fun s => strip s = s) lines /\ tidy lines).
Proof.
  split.
  - apply normalize_lines_fix; [apply normalize_lines_stripped | apply normalize_lines_tidy].
  - split.
    + intro E. rewrite <- E. split; [apply normalize_lines_stripped | apply normalize_lines_tidy].
    + intros [F T]. now apply normalize_lines_fix.
Qed.

Lemma squeeze_length (pb : bool) (lines : list str) :
  List.length (squeeze pb lines) <= List.length lines.
Proof.
  revert pb; induction lines as [|l lines IH]; intros pb; simpl; [lia|].
  destruct (strip l); [destruct pb|]; simpl;
    [specialize (IH true) | specialize (IH true) | specialize (IH false)]; lia.
Qed.

Lemma normalize_lines_length (lines : list str) :
  List.length (normalize_lines lines) <= List.length lines.
Proof.
  rewrite normalize_lines_squeeze.
  destruct (dropwhile_end_split is_blank (squeeze false lines)) as [w [E _]].
  pose proof (squeeze_length false lines) as H. rewrite E, length_app in H. lia.
Qed.

(** ** The output of the pass *)

(** X8. Whatever the input, the output of the pass is normalized: line
    normalization leaves it as it is, its lines are stripped and no blank
    line is followed by a blank line or ends the output. *)
Theorem pass_output_normalized (U : unicode_db) (raw : list str) :
  normalize_lines (normalization_pass U raw) = normalization_pass U raw
  /\ Forall (fun s => strip s = s) (normalization_pass U raw)
  /\ (forall a b, normalization_pass U raw <> a ++ [] :: [] :: b)
  /\ (forall a, normalization_pass U raw <> a ++ [[]]).
Proof.
  rewrite normalization_pass_run. set (ls := normalize_lines raw).
  assert (F : Forall (fun s => strip s = s) (run U None ls)).
  { apply (run_stripped U (List.length ls)); [lia | apply normalize_lines_stripped]. }
  assert (T : tidy (run U None ls)).
  { apply (run_tidy U (List.length ls)); [lia | apply normalize_lines_tidy]. }
  repeat split; trivial.
  - now apply normalize_lines_fix.
  - intros a b E. rewrite E in T. apply tidy_app_r in T. destruct T as [H _].
    now apply H.
  - intros a E. now apply (tidy_last _ a [] T).
Qed.

Lemma run_length (U : unicode_db) : forall n cg ls,
  List.length ls <= n -> List.length (run U cg ls) <= List.length ls.
Proof.
  induction n as [|n IH]; intros cg ls Hn.
  - destruct ls; [simpl; lia | simpl in Hn; lia].
  - destruct ls as [|line tl]; [simpl; lia|]. simpl in Hn. rewrite run_step.
    pose proof (dropwhile_length is_hash tl) as Hd.
    destruct (is_header U line); [simpl; specialize (IH cg tl); lia|].
    destruct (is_extinf U line); [|simpl; specialize (IH cg tl); lia].
    assert (Ord : forall b,
      List.length (b :: match dropwhile is_hash tl with
                        | (c :: u) :: after' => (c :: u) :: run U cg after'
                        | _ => run U cg (dropwhile is_hash tl)
                        end) <= S (List.length tl)).
    { intro b. destruct (dropwhile is_hash tl) as [|[|d u] after'] eqn:Ea; simpl in *.
      - lia.
      - specialize (IH cg ([] :: after')). simpl in IH. lia.
      - specialize (IH cg after'). lia. }
    destruct (detect_section_from_extinf U line) as [[|c sec']|]; try apply Ord.
    destruct tl as [|next tl']; [simpl; lia|]. simpl in Hn.
    destruct (negb (is_extinf U next)); simpl.
    + specialize (IH (Some (c :: sec')) tl'). lia.
    + specialize (IH (Some (c :: sec')) (next :: tl')). simpl in IH. lia.
Qed.

Lemma run_nonempty (U : unicode_db) (cg : option str) (line : str) (tl : list str) :
  run U cg (line :: tl) <> [].
Proof.
  rewrite run_step. destruct (is_header U line); [discriminate|].
  destruct (is_extinf U line); [|discriminate].
  destruct (detect_section_from_extinf U line) as [[|c sec']|]; discriminate.
Qed.

(** X9. The pass never writes more lines than the normalized input has,
    which has no more lines than the raw input; it writes nothing exactly
    when the normalized input is empty. *)
Theorem pass_output_length (U : unicode_db) (raw : list str) :
  List.length (normalization_pass U raw) <= List.length (normalize_lines raw)
  /\ List.length (normalize_lines raw) <= List.length raw
  /\ (normalization_pass U raw = [] <-> normalize_lines raw = []).
Proof.
  rewrite normalization_pass_run. repeat split.
  - apply (run_length U (List.length (normalize_lines raw))). lia.
  - apply normalize_lines_length.
  - destruct (normalize_lines raw) as [|l tl]; [reflexivity|].
    intro E. now apply run_nonempty in E.
  - intros ->. reflexivity.
Qed.

(** ** What the loop writes on a metadata line *)

Lemma logo_for_values (k : str) : In (logo_for k) WRITTEN_LOGOS.
Proof.
  unfold logo_for. change (dict_get DEFAULT DEFAULT_LOGOS) with (Some hizliresim).
  unfold DEFAULT_LOGOS, WRITTEN_LOGOS. cbn [dict_get].
  repeat match goal with
    | |- context [if ?b then _ else _] => destruct b; [simpl; tauto|]
    end.
  simpl. tauto.
Qed.

Lemma section_key_written (U : unicode_db) (t sec : str) :
  first_section (SECTION_KEYWORDS U) t = Some sec ->
  In sec [SINEMALAR; BELGESEL; YEDEK; K724].
Proof.
  intro H. pose proof H as Hc. rewrite first_section_classify in Hc.
  apply first_section_some in H as [before [rx [after [E _]]]].
  assert (Hin : In sec (map fst (SECTION_KEYWORDS U))).
  { rewrite E, map_app. apply in_or_app. right. now left. }
  change (map fst (SECTION_KEYWORDS U)) with [SINEMALAR; BELGESEL; YEDEK; K724; FILMLER] in Hin.
  simpl in Hin. destruct Hin as [<-|[<-|[<-|[<-|[<-|[]]]]]]; simpl; try tauto.
  now apply classify_not_movies in Hc.
Qed.

Lemma group_of_written (cg : option str) : known_state cg -> In (group_of cg) WRITTEN_GROUPS.
Proof.
  destruct cg as [g|]; simpl; [|tauto].
  intros [<-|[<-|[<-|[<-|[]]]]]; simpl; tauto.
Qed.

Section WrittenLines.
Variable U : unicode_db.

Lemma run_shape : forall n cg ls,
  List.length ls <= n -> known_state cg ->
  Forall (fun l => is_metadata l = true -> written_shape l) (run U cg ls).
Proof.
  induction n as [|n IH]; intros cg ls Hn Hg.
  - destruct ls; [constructor | simpl in Hn; lia].
  - destruct ls as [|line tl]; [constructor|]. simpl in Hn. rewrite run_step.
    pose proof (dropwhile_length is_hash tl) as Hd.
    destruct (is_header U line).
    { constructor; [discriminate | apply IH; trivial; lia]. }
    destruct (is_extinf U line) eqn:Ex.
    2:{ constructor; [|apply IH; trivial; lia]. intro H.
        rewrite (not_extinf_not_metadata U line Ex) in H. discriminate. }
    assert (Ord :
      Forall (fun l => is_metadata l = true -> written_shape l)
        (entry_line U (snd (parse_extinf_attrs U line))
                    (hd_error (dropwhile is_hash tl)) cg ::
         match dropwhile is_hash tl with
         | (c :: u) :: after' => (c :: u) :: run U cg after'
         | _ => run U cg (dropwhile is_hash tl)
         end)).
    { constructor.
      - intros _. eexists _, _, _. split; [reflexivity|].
        split; [now apply group_of_written | apply logo_for_values].
      - destruct (dropwhile is_hash tl) as [|[|d u] after'] eqn:Ed; simpl in Hd.
        + constructor.
        + apply IH; trivial. simpl. lia.
        + constructor; [|apply IH; trivial; lia]. intro H. apply dropwhile_head in Ed.
          rewrite (not_hash_not_metadata _ Ed) in H. discriminate. }
    pose proof (detect_section_unfold U line) as Ed.
    destruct (detect_section_from_extinf U line) as [[|c sec']|]; try exact Ord.
    symmetry in Ed. apply section_key_written in Ed.
    constructor.
    + intros _. eexists _, _, _. split; [reflexivity|].
      split; [|apply logo_for_values]. simpl in Ed. simpl. tauto.
    + destruct tl as [|next tl']; [constructor|]. simpl in Hn.
      destruct (is_extinf U next) eqn:En; cbn [negb].
      * apply IH; trivial. simpl. lia.
      * constructor; [|apply IH; trivial; lia]. intro H.
        rewrite (not_extinf_not_metadata U next En) in H. discriminate.
Qed.
End WrittenLines.

(** X10. Every metadata line of the output is written from a name alone:
    its tvg-name and title are that name, its tvg-id the sanitized name, its
    group-title DEFAULT or one of the cinema, documentary, backup and
    round-the-clock categories, and its tvg-logo one of the two logo URLs
    of the table; no other group or logo is ever written. *)
Theorem metadata_line_values (U : unicode_db) (raw : list str) (l : str) :
  In l (normalization_pass U raw) -> is_metadata l = true ->
  exists name group logo,
    l = build_extinf (canon (sanitize_id name) name logo group) name
    /\ In group WRITTEN_GROUPS /\ In logo WRITTEN_LOGOS.
Proof.
  rewrite normalization_pass_run. intros Hin Hm.
  pose proof (run_shape U (List.length (normalize_lines raw)) None
                        (normalize_lines raw) (le_n _) I) as F.
  rewrite Forall_forall in F. now apply F.
Qed.

Lemma metadata_line_values_witness :
  exists name group logo,
    Q "#EXTINF:-1 tvg-id='Kanal.D' tvg-name='Kanal D' tvg-logo='https://i.hizliresim.com/i21k4te.png' group-title='YEDEK',Kanal D"
    = build_extinf (canon (sanitize_id name) name logo group) name
    /\ In group WRITTEN_GROUPS /\ In logo WRITTEN_LOGOS.
Proof.
  apply (metadata_line_values ascii_db
           [Q "#EXTINF:-1 group-title='x',Yedek"; A "#EXTINF:-1,Kanal D"; A "http://k/d"]).
  - vm_compute. tauto.
  - reflexivity.
Defined.

(** ** Lines that do not start with [#] *)

Section PlainLines.
Variable U : unicode_db.
Hypothesis safe : hash_safe U.

Lemma upper_hash (l : str) : startswith (upper U l) (A "#") = true -> is_hash l = true.
Proof.
  destruct l as [|c r]; [discriminate|]. unfold upper, is_hash. cbn [flat_map].
  unfold upper_char, is_ascii. destruct (N.ltb_spec c 128) as [Hc|Hc].
  - cbn [app startswith A map list_ascii_of_string].
    change (N_of_ascii "#") with 35%N.
    unfold is_lower_az. intro H. apply andb_true_iff in H as [H _].
    apply andb_true_iff. split; [|reflexivity].
    destruct ((97 <=? c)%N && (c <=? 122)%N) eqn:E; [|exact H].
    apply N.eqb_eq in H. apply andb_true_iff in E as [E1 E2].
    apply N.leb_le in E1, E2. lia.
  - specialize (safe c Hc). destruct (uni_upper U c) as [|d u]; [destruct safe|].
    cbn [app startswith A map list_ascii_of_string].
    change (N_of_ascii "#") with 35%N. intro H. apply andb_true_iff in H as [H _].
    apply N.eqb_eq in H. congruence.
Qed.

Lemma is_extinf_hash (l : str) : is_extinf U l = true -> is_hash l = true.
Proof.
  unfold is_extinf. intro H. apply upper_hash. apply startswith_prefix in H as [t ->].
  reflexivity.
Qed.

Lemma is_header_hash (l : str) : is_header U l = true -> is_hash l = true.
Proof.
  unfold is_header. intro H. apply upper_hash. apply startswith_prefix in H as [t ->].
  reflexivity.
Qed.

Lemma build_extinf_hash (attrs : dict) (title : str) :
  plain (build_extinf attrs title) = false.
Proof. destruct (build_extinf_cons attrs title) as [r ->]. reflexivity. Qed.

Lemma filter_plain_dropwhile (l : list str) :
  filter plain (dropwhile is_hash l) = filter plain l.
Proof.
  induction l as [|x l IH]; [reflexivity|]. simpl.
  destruct (is_hash x) eqn:E; [|reflexivity].
  assert (Hx : plain x = false) by (unfold plain; now rewrite E).
  rewrite Hx. exact IH.
Qed.

Lemma run_plain : forall n cg ls,
  List.length ls <= n -> filter plain (run U cg ls) = filter plain ls.
Proof.
  induction n as [|n IH]; intros cg ls Hn.
  - destruct ls; [reflexivity | simpl in Hn; lia].
  - destruct ls as [|line tl]; [reflexivity|]. simpl in Hn. rewrite run_step.
    pose proof (dropwhile_length is_hash tl) as Hd.
    destruct (is_header U line) eqn:Eh.
    { assert (Hl : plain line = false)
        by (unfold plain; now rewrite (is_header_hash line Eh)).
      cbn [filter]. rewrite Hl. change (plain (A "#EXTM3U")) with false.
      cbv iota. apply IH. lia. }
    destruct (is_extinf U line) eqn:Ex; [|cbn [filter]; rewrite IH by lia; reflexivity].
    assert (Hl : plain line = false)
      by (unfold plain; now rewrite (is_extinf_hash line Ex)).
    assert (Ord : forall b, plain b = false ->
      filter plain (b :: match dropwhile is_hash tl with
                         | (c :: u) :: after' => (c :: u) :: run U cg after'
                         | _ => run U cg (dropwhile is_hash tl)
                         end) = filter plain (line :: tl)).
    { intros b Hb. cbn [filter]. rewrite Hb, Hl.
      rewrite <- (filter_plain_dropwhile tl).
      destruct (dropwhile is_hash tl) as [|[|d u] after'] eqn:Ea; simpl in Hd.
      - reflexivity.
      - apply IH. simpl. lia.
      - cbn [filter]. rewrite IH by lia. reflexivity. }
    destruct (detect_section_from_extinf U line) as [[|c sec']|];
      try (apply Ord, build_extinf_hash).
    cbn [filter]. unfold section_line. rewrite build_extinf_hash, Hl.
    destruct tl as [|next tl']; [reflexivity|]. simpl in Hn.
    destruct (negb (is_extinf U next)).
    + cbn [filter]. rewrite IH by lia. reflexivity.
    + apply IH. simpl. lia.
Qed.
End PlainLines.

(** X11. When upper-casing never produces a leading [#] (as with the
    tables of Unicode), the lines that do not start with [#] (URLs, blank
    and stray lines) are neither dropped nor changed nor reordered by the
    loop: the output holds exactly those of the normalized input, in
    order. *)
Theorem plain_lines_preserved (U : unicode_db) (raw : list str) :
  hash_safe U ->
  filter plain (normalization_pass U raw) = filter plain (normalize_lines raw).
Proof.
  intro H. rewrite normalization_pass_run.
  apply (run_plain U H (List.length (normalize_lines raw))). lia.
Qed.

Lemma plain_lines_preserved_witness :
  hash_safe ascii_db
  /\ filter plain
       (normalization_pass ascii_db
          [A "#EXTM3U"; A "#EXTINF:-1,A"; A "#EXTINF:-1,B"; A "http://b"; A ""; A "stray"])
     = filter plain
         (normalize_lines
            [A "#EXTM3U"; A "#EXTINF:-1,A"; A "#EXTINF:-1,B"; A "http://b"; A ""; A "stray"]).
Proof.
  assert (H : hash_safe ascii_db) by (intros c Hc; simpl; lia).
  split; [exact H|].
  apply (plain_lines_preserved ascii_db). exact H.
Defined.

(** ** Progress of the loop *)

(** X12. The loop ends within as many iterations as there are lines: with
    at least that much fuel the result does not depend on the fuel. *)
Theorem loop_ends_within_length (U : unicode_db) (fuel : nat) (cg : option str)
        (rest : list str) :
  List.length rest <= fuel ->
  entry_loop U fuel cg rest = entry_loop U (List.length rest) cg rest.
Proof. intro H. apply entry_loop_fuel; [exact H | lia]. Qed.

Lemma loop_ends_within_length_witness :
  entry_loop ascii_db 9 None [A "#EXTINF:-1,A"; A "#c"; A "http://a"; A "x"]
  = entry_loop ascii_db 4 None [A "#EXTINF:-1,A"; A "#c"; A "http://a"; A "x"].
Proof.
  apply (loop_ends_within_length ascii_db 9 None
           [A "#EXTINF:-1,A"; A "#c"; A "http://a"; A "x"]).
  simpl. lia.
Defined.

(** X13. After an ordinary entry, every line that starts with [#] and
    stands before the next line that does not is dropped, further
    metadata lines included: the entry takes that next line as its URL. *)
Theorem hash_lines_before_url_dropped (U : unicode_db) (cg : option str)
        (line : str) (hs : list str) (url : str) (tl : list str) :
  is_header U line = false -> is_extinf U line = true ->
  detect_section_from_extinf U line = None ->
  Forall (fun h => is_hash h = true) hs -> is_hash url = false -> url <> [] ->
  run U cg (line :: hs ++ url :: tl)
  = entry_line U (snd (parse_extinf_attrs U line)) (Some url) cg :: url :: run U cg tl.
Proof.
  intros Eh Ex Ed Fh Hu Hne. rewrite run_step, Eh, Ex, Ed.
  rewrite dropwhile_app, (dropwhile_all is_hash hs Fh). cbn [dropwhile]. rewrite Hu.
  cbn [hd_error]. destruct url as [|c u]; [contradiction | reflexivity].
Qed.

Lemma hash_lines_before_url_dropped_witness :
  run ascii_db None
      (A "#EXTINF:-1,A" :: [A "#EXTVLCOPT:x"; A "#EXTINF:-1,B"] ++ A "http://b" :: [A "z"])
  = entry_line ascii_db (snd (parse_extinf_attrs ascii_db (A "#EXTINF:-1,A")))
               (Some (A "http://b")) None
      :: A "http://b" :: run ascii_db None [A "z"].
Proof.
  apply (hash_lines_before_url_dropped ascii_db None (A "#EXTINF:-1,A")
           [A "#EXTVLCOPT:x"; A "#EXTINF:-1,B"] (A "http://b") [A "z"]);
    try reflexivity.
  - repeat constructor.
  - discriminate.
Defined.

(** ** The entries handed to the reachability check *)

Lemma collect_entries_cases (U : unicode_db) (line : str) (rest : list str) :
  collect_entries U (line :: rest) =
  if is_extinf U line then
    match rest with
    | next :: rest' =>
        (line, if negb (is_hash next) then Some next else None)
          :: collect_entries U rest'
    | [] => [(line, None)]
    end
  else collect_entries U rest.
Proof. reflexivity. Qed.

Lemma collect_entries_sound (U : unicode_db) : forall n lines,
  List.length lines <= n ->
  (forall ext url, In (ext, url) (collect_entries U lines) ->
     is_extinf U ext = true
     /\ match url with
        | Some u => is_hash u = false /\ exists pre post, lines = pre ++ ext :: u :: post
        | None => exists pre post, lines = pre ++ ext :: post
                                   /\ forall x r, post = x :: r -> is_hash x = true
        end)
  /\ 2 * List.length (collect_entries U lines) <= S (List.length lines).
Proof.
  induction n as [|n IH]; intros lines Hn.
  - destruct lines; [|simpl in Hn; lia]. split; [intros ? ? []|simpl; lia].
  - destruct lines as [|line rest]; [split; [intros ? ? []|simpl; lia]|].
    simpl in Hn. rewrite collect_entries_cases.
    assert (Lift : forall pre0 l0 ext url,
      (is_extinf U ext = true
       /\ match url with
          | Some u => is_hash u = false /\ exists pre post, l0 = pre ++ ext :: u :: post
          | None => exists pre post, l0 = pre ++ ext :: post
                                     /\ forall x r, post = x :: r -> is_hash x = true
          end) ->
      is_extinf U ext = true
      /\ match url with
         | Some u => is_hash u = false
                     /\ exists pre post, pre0 ++ l0 = pre ++ ext :: u :: post
         | None => exists pre post, pre0 ++ l0 = pre ++ ext :: post
                                    /\ forall x r, post = x :: r -> is_hash x = true
         end).
    { intros pre0 l0 ext [u|] [He H]; (split; [exact He|]).
      - destruct H as [Hu [pre [post ->]]]. split; [exact Hu|].
        exists (pre0 ++ pre), post. now rewrite <- app_assoc.
      - destruct H as [pre [post [-> Hp]]]. exists (pre0 ++ pre), post.
        split; [now rewrite <- app_assoc | exact Hp]. }
    destruct (is_extinf U line) eqn:Ex.
    + destruct rest as [|next rest'].
      * split; [|simpl; lia]. intros ext url [E|[]]. inversion E; subst.
        split; [exact Ex|]. exists [], []. split; [reflexivity | discriminate].
      * simpl in Hn. destruct (IH rest' ltac:(lia)) as [IH1 IH2]. split.
        -- intros ext url [E|Hin].
           ++ inversion E; subst. split; [exact Ex|].
              destruct (is_hash next) eqn:Eh; cbn [negb].
              ** exists [], (next :: rest'). split; [reflexivity|].
                 intros x r Er. now inversion Er; subst.
              ** split; [exact Eh|]. now exists [], rest'.
           ++ apply (Lift [line; next] rest'). now apply IH1.
        -- simpl. lia.
    + destruct (IH rest ltac:(lia)) as [IH1 IH2]. split.
      * intros ext url Hin. apply (Lift [line] rest). now apply IH1.
      * simpl. lia.
Qed.

(** X14. Every entry collected for the check is a metadata line of the
    sequence; its URL, when there is one, is the very next line and does
    not start with [#]; without URL, the metadata line is the last one or
    is followed by a [#] line.  As the index moves by two after each
    metadata line, at most every other line gives an entry. *)
Theorem collected_entries_sound (U : unicode_db) (lines : list str) :
  (forall ext url, In (ext, url) (collect_entries U lines) ->
     is_extinf U ext = true
     /\ match url with
        | Some u => is_hash u = false /\ exists pre post, lines = pre ++ ext :: u :: post
        | None => exists pre post, lines = pre ++ ext :: post
                                   /\ forall x r, post = x :: r -> is_hash x = true
        end)
  /\ 2 * List.length (collect_entries U lines) <= S (List.length lines).
Proof. apply (collect_entries_sound U (List.length lines)). lia. Qed.

Lemma collect_entries_paired (U : unicode_db) :
  hash_safe U -> forall n lines,
  List.length lines <= n -> paired U lines ->
  map fst (collect_entries U lines) = filter (is_extinf U) lines
  /\ Forall (fun e => exists u, snd e = Some u) (collect_entries U lines).
Proof.
  intro Hs. induction n as [|n IH]; intros lines Hn Hp.
  - destruct lines; [|simpl in Hn; lia]. split; [reflexivity | constructor].
  - destruct lines as [|line rest]; [split; [reflexivity | constructor]|].
    simpl in Hn. rewrite collect_entries_cases. cbn [paired filter] in *.
    destruct (is_extinf U line) eqn:Ex.
    + destruct rest as [|u rest']; [destruct Hp|]. destruct Hp as [Hu Hp]. simpl in Hn.
      destruct (IH rest' ltac:(lia) Hp) as [IH1 IH2].
      rewrite Hu. cbn [negb map fst filter].
      assert (Eu : is_extinf U u = false).
      { destruct (is_extinf U u) eqn:E; [|reflexivity].
        apply (is_extinf_hash U Hs) in E. congruence. }
      rewrite Eu, IH1. split; [reflexivity|]. constructor; [now exists u | exact IH2].
    + apply IH; [lia | exact Hp].
Qed.

(** X15. When every metadata line is followed by a line that does not
    start with [#] (and upper-casing never produces a leading [#]), the
    check collects every metadata line of the sequence, in order, each with
    a URL. *)
Theorem paired_lines_all_collected (U : unicode_db) (lines : list str) :
  hash_safe U -> paired U lines ->
  map fst (collect_entries U lines) = filter (is_extinf U) lines
  /\ Forall (fun e => exists u, snd e = Some u) (collect_entries U lines).
Proof. intros Hs Hp. apply (collect_entries_paired U Hs (List.length lines)); trivial. Qed.

Lemma paired_lines_all_collected_witness :
  map fst (collect_entries ascii_db
             [A "#EXTM3U"; A "#EXTINF:-1,A"; A "http://a"; A "#EXTINF:-1,B"; A "http://b"])
  = filter (is_extinf ascii_db)
      [A "#EXTM3U"; A "#EXTINF:-1,A"; A "http://a"; A "#EXTINF:-1,B"; A "http://b"]
  /\ Forall (fun e => exists u, snd e = Some u)
       (collect_entries ascii_db
          [A "#EXTM3U"; A "#EXTINF:-1,A"; A "http://a"; A "#EXTINF:-1,B"; A "http://b"]).
Proof.
  apply (paired_lines_all_collected ascii_db).
  - intros c Hc. simpl. lia.
  - simpl. tauto.
Defined.

(** ** The tally of the reachability check *)

Lemma check_loop_acc (net : network) : forall entries i ok bad,
  check_loop net i entries ok bad
  = (ok + fst (check_loop net i entries 0 []),
     bad ++ snd (check_loop net i entries 0 [])).
Proof.
  induction entries as [|[ext url] entries IH]; intros i ok bad.
  - simpl. now rewrite Nat.add_0_r, app_nil_r.
  - cbn [check_loop]. destruct url as [[|c u]|].
    + rewrite (IH (S i) ok (bad ++ _)), (IH (S i) 0 ([] ++ _)). cbn [fst snd].
      now rewrite <- app_assoc.
    + destruct (probe net i (c :: u)) as [reason|].
      * rewrite (IH (S i) ok (bad ++ _)), (IH (S i) 0 ([] ++ _)). cbn [fst snd].
        now rewrite <- app_assoc.
      * rewrite (IH (S i) (S ok) bad), (IH (S i) 1 []). cbn [fst snd].
        f_equal. lia.
    + rewrite (IH (S i) ok (bad ++ _)), (IH (S i) 0 ([] ++ _)). cbn [fst snd].
      now rewrite <- app_assoc.
Qed.

Lemma check_loop_cons (net : network) (i : nat) (ext : str) (url : option str)
      (entries : list (str * option str)) :
  check_loop net i ((ext, url) :: entries) 0 []
  = match (if has_url (ext, url)
           then match url with Some u => probe net i u | None => None end
           else Some (A "<missing>")) with
    | None => (S (fst (check_loop net (S i) entries 0 [])),
               snd (check_loop net (S i) entries 0 []))
    | Some reason => (fst (check_loop net (S i) entries 0 []),
                      (ext, reason) :: snd (check_loop net (S i) entries 0 []))
    end.
Proof.
  cbn [check_loop]. unfold has_url. cbn [snd].
  destruct url as [[|c u]|]; try (rewrite check_loop_acc; reflexivity).
  destruct (probe net i (c :: u)); rewrite check_loop_acc; reflexivity.
Qed.

Lemma check_loop_counts (net : network) : forall entries i,
  fst (check_loop net i entries 0 []) + List.length (snd (check_loop net i entries 0 []))
  = List.length entries
  /\ fst (check_loop net i entries 0 []) <= List.length (filter has_url entries)
  /\ (forall ext url, In (ext, url) entries -> has_url (ext, url) = false ->
        In (ext, A "<missing>") (snd (check_loop net i entries 0 []))).
Proof.
  induction entries as [|[ext url] entries IH]; intros i.
  - simpl. repeat split; [lia | intros ? ? []].
  - destruct (IH (S i)) as [IH1 [IH2 IH3]]. rewrite check_loop_cons. cbn [filter].
    destruct (has_url (ext, url)) eqn:Eu.
    + destruct (match url with Some u => probe net i u | None => None end);
        cbn [fst snd List.length]; repeat split; try lia;
        intros e u' [E|Hin] Hu; try (inversion E; subst; congruence);
        try (right; now apply (IH3 e u')); now apply (IH3 e u').
    + cbn [fst snd List.length]. repeat split; try lia.
      intros e u' [E|Hin] Hu; [inversion E; subst; now left | right; now apply (IH3 e u')].
Qed.

(** X16. The tally counts every entry once, as OK or as bad; an entry
    counted OK has a URL; an entry without URL (or with a blank one) is
    reported with the reason [<missing>], whatever the network answers. *)
Theorem check_tally (net : network) (entries : list (str * option str)) :
  fst (check_entries net entries) + List.length (snd (check_entries net entries))
  = List.length entries
  /\ fst (check_entries net entries) <= List.length (filter has_url entries)
  /\ (forall ext url, In (ext, url) entries -> has_url (ext, url) = false ->
        In (ext, A "<missing>") (snd (check_entries net entries))).
Proof. apply check_loop_counts. Qed.

Lemma check_loop_healthy (net : network) :
  (forall i u, exists s, net_head net i u = Status s /\ (s < 400)%Z) ->
  forall entries i,
    check_loop net i entries 0 []
    = (List.length (filter has_url entries),
       map (fun e => (fst e, A "<missing>")) (filter (fun e => negb (has_url e)) entries)).
Proof.
  intros H. induction entries as [|[ext url] entries IH]; intros i; [reflexivity|].
  rewrite check_loop_cons, IH. cbn [filter fst snd].
  destruct (has_url (ext, url)) eqn:Eu; cbn [negb]; [|reflexivity].
  destruct url as [u|]; [|discriminate Eu].
  unfold probe. destruct (H i u) as [s [-> Hs]].
  replace (400 <=? s)%Z with false by (symmetry; apply Z.leb_gt; lia).
  replace (s <? 400)%Z with true by (symmetry; apply Z.ltb_lt; lia).
  reflexivity.
Qed.

(** X17. When every HEAD request answers with a status below 400, the
    entries with a URL are all counted OK and the bad list holds exactly
    the entries without URL, in order, each with the reason [<missing>]. *)
Theorem check_healthy_network (net : network) (entries : list (str * option str)) :
  (forall i u, exists s, net_head net i u = Status s /\ (s < 400)%Z) ->
  check_entries net entries
  = (List.length (filter has_url entries),
     map (fun e => (fst e, A "<missing>")) (filter (fun e => negb (has_url e)) entries)).
Proof. intro H. now apply check_loop_healthy. Qed.

Lemma check_healthy_network_witness :
  check_entries {| net_head := fun _ _ => Status 200; net_get := fun _ _ => Status 500 |}
                [(A "#EXTINF:-1,A", Some (A "http://a")); (A "#EXTINF:-1,B", None);
                 (A "#EXTINF:-1,C", Some [])]
  = (1, [(A "#EXTINF:-1,B", A "<missing>"); (A "#EXTINF:-1,C", A "<missing>")]).
Proof.
  apply (check_healthy_network
           {| net_head := fun _ _ => Status 200; net_get := fun _ _ => Status 500 |}
           [(A "#EXTINF:-1,A", Some (A "http://a")); (A "#EXTINF:-1,B", None);
            (A "#EXTINF:-1,C", Some [])]).
  intros i u. exists 200%Z. split; [reflexivity | lia].
Defined.

(** X18. One probe: the entry is OK exactly when the HEAD status is below
    400, or the HEAD status is 400 or more and the GET status is below 400.
    A reason is the text of an exception, or [HTTP] followed by the status
    of the GET request: the status of the HEAD request is never reported. *)
Theorem probe_verdict (net : network) (i : nat) (url : str) :
  (probe net i url = None <->
     (exists s, net_head net i url = Status s /\ (s < 400)%Z)
     \/ (exists s s', net_head net i url = Status s /\ (400 <= s)%Z
                      /\ net_get net i url = Status s' /\ (s' < 400)%Z))
  /\ (forall reason, probe net i url = Some reason ->
        net_head net i url = Raised reason
        \/ (exists s, net_head net i url = Status s /\ (400 <= s)%Z
                      /\ net_get net i url = Raised reason)
        \/ (exists s s', net_head net i url = Status s /\ (400 <= s)%Z
                         /\ net_get net i url = Status s' /\ (400 <= s')%Z
                         /\ reason = A "HTTP " ++ decimal s')).
Proof.
  unfold probe. destruct (net_head net i url) as [s|e].
  - destruct (Z.leb_spec 400 s) as [Hs|Hs].
    + destruct (net_get net i url) as [s'|e'].
      * destruct (Z.ltb_spec s' 400) as [Hs'|Hs']; split.
        -- split; [intros _; right; exists s, s'; auto|reflexivity].
        -- discriminate.
        -- split; [discriminate|]. intros [[s0 [E H0]]|[s0 [s1 [E [H0 [E1 H1]]]]]];
             inversion E; inversion E1 || idtac; subst; lia.
        -- intros reason E. inversion E; subst. right; right. exists s, s'. auto.
      * split.
        -- split; [discriminate|]. intros [[s0 [E H0]]|[s0 [s1 [E [H0 [E1 H1]]]]]];
             [inversion E; subst; lia | discriminate E1].
        -- intros reason E. inversion E; subst. right; left. exists s. auto.
    + replace (s <? 400)%Z with true by (symmetry; apply Z.ltb_lt; lia). split.
      * split; [intros _; left; exists s; auto | reflexivity].
      * discriminate.
  - split.
    + split; [discriminate|].
      intros [[s0 [E H0]]|[s0 [s1 [E _]]]]; discriminate E.
    + intros reason E. inversion E; subst. now left.
Qed.
